(** * Verification of the LUT generator [scripts/generate_tezza_v2.py]

    The script builds 3D colour lookup tables: an identity grid is threaded
    through a sequence of pointwise colour operators and finally written as a
    [.cube] text file.

    Modelling conventions.
    - Python/numpy floating-point values are modelled by the real numbers
      of the Standard Library, so every statement below is about the exact
      arithmetic that the floating-point code approximates.
    - A numpy array of shape [(N, N, N, 3)] is a nested list of cells, indexed
      blue, green, red as in the source; a cell is a record of three channels.
    - numpy's vectorised expressions act cell by cell, so each operator is a
      cell function mapped over the grid.
    - Python exceptions are values of type [error]; code that may raise
      returns a [result]. *)

From Stdlib Require Import String Ascii DecimalString.
From Stdlib Require Import Reals Lra Lia ZArith Bool List Permutation.
Import ListNotations.

Open Scope R_scope.

(** ** Exceptions and the result monad *)

Inductive error : Type :=
| ZeroDivisionError
| ValueError
| IndexError
| OverflowError
| OSError.

Inductive result (A : Type) : Type :=
| Ok (a : A)
| Raise (e : error).

Arguments Ok {A} a.
Arguments Raise {A} e.

Definition bind {A B : Type} (m : result A) (k : A -> result B) : result B :=
  match m with
  | Ok a => k a
  | Raise e => Raise e
  end.

Notation "x <- m ;; k" := (bind m (fun x => k))
  (at level 61, m at next level, right associativity).

(** [for x in l: s = body x s], stopping at the first exception. *)
Fixpoint for_each {A S : Type} (l : list A) (body : A -> S -> result S) (s : S)
  : result S :=
  match l with
  | [] => Ok s
  | a :: l' => s' <- body a s ;; for_each l' body s'
  end.

(** Python's [range(n)]: empty when [n <= 0]. *)
Definition range (n : Z) : list nat := seq 0 (Z.to_nat n).

(** Python's true division of two integers. *)
Definition py_div (a b : Z) : result R :=
  if (b =? 0)%Z then Raise ZeroDivisionError else Ok (IZR a / IZR b).

(** ** Cells and grids *)

Record rgb : Type := RGB { chR : R; chG : R; chB : R }.

Definition Grid : Type := list (list (list rgb)).

Definition grid_map (f : rgb -> rgb) (lut : Grid) : Grid :=
  map (map (map f)) lut.

(** All cells, blue outermost and red innermost. *)
Definition cells (lut : Grid) : list rgb := concat (concat lut).

(** [lut[b, g, r]] for in-range indices. *)
Definition grid_get (lut : Grid) (b g r : nat) : option rgb :=
  match nth_error lut b with
  | None => None
  | Some plane =>
      match nth_error plane g with
      | None => None
      | Some row => nth_error row r
      end
  end.

(** The array has shape [(n, n, n, 3)]. *)
Definition shape (n : nat) (lut : Grid) : Prop :=
  length lut = n /\
  Forall (fun plane => length plane = n /\
                       Forall (fun row => length row = n) plane) lut.

Definition unit_interval (x : R) : Prop := 0 <= x <= 1.

Definition cell_unit (p : rgb) : Prop :=
  unit_interval (chR p) /\ unit_interval (chG p) /\ unit_interval (chB p).

(** No channel of [p] exceeds the same channel of [q]. *)
Definition channels_le (p q : rgb) : Prop :=
  chR p <= chR q /\ chG p <= chG q /\ chB p <= chB q.

Definition grid_unit (lut : Grid) : Prop :=
  Forall (Forall (Forall cell_unit)) lut.

(** Replace the element at position [i]; positions past the end are left to
    the caller, who checks the bounds first. *)
Fixpoint list_set {A : Type} (i : nat) (v : A) (l : list A) : list A :=
  match l, i with
  | [], _ => []
  | _ :: l', O => v :: l'
  | x :: l', S i' => x :: list_set i' v l'
  end.

(** [lut[b, g, r] = v]; an index outside the array raises [IndexError]. *)
Definition set_cell (lut : Grid) (b g r : nat) (v : rgb) : result Grid :=
  match nth_error lut b with
  | None => Raise IndexError
  | Some plane =>
      match nth_error plane g with
      | None => Raise IndexError
      | Some row =>
          if (r <? length row)%nat
          then Ok (list_set b (list_set g (list_set r v row) plane) lut)
          else Raise IndexError
      end
  end.

(** [np.zeros((size, size, size, 3))]; numpy rejects negative dimensions. *)
Definition np_zeros (size : Z) : result Grid :=
  if (size <? 0)%Z then Raise ValueError
  else
    let n := Z.to_nat size in
    Ok (repeat (repeat (repeat (RGB 0 0 0) n) n) n).

(** ** Grid construction *)

Definition LUT_SIZE : Z := 33%Z.

Definition identity_cell (size : Z) (b g r : nat) : result rgb :=
  x <- py_div (Z.of_nat r) (size - 1) ;;
  y <- py_div (Z.of_nat g) (size - 1) ;;
  z <- py_div (Z.of_nat b) (size - 1) ;;
  Ok (RGB x y z).

Definition identity_lut (size : Z) : result Grid :=
  lut <- np_zeros size ;;
  for_each (range size) (fun b lut =>
    for_each (range size) (fun g lut =>
      for_each (range size) (fun r lut =>
        v <- identity_cell size b g r ;;
        set_cell lut b g r v) lut) lut) lut.

(** The grid that the three loops of [identity_lut] leave behind. *)
Definition identity_table (size : Z) : Grid :=
  map (fun b =>
    map (fun g =>
      map (fun r =>
        RGB (IZR (Z.of_nat r) / IZR (size - 1))
            (IZR (Z.of_nat g) / IZR (size - 1))
            (IZR (Z.of_nat b) / IZR (size - 1)))
        (range size)) (range size)) (range size).

(** ** numpy primitives on reals *)

(** [np.clip(x, lo, hi)]. *)
Definition np_clip (x lo hi : R) : R := Rmin (Rmax x lo) hi.

(** [x ** y] for a base [x >= 0] and an exponent [y > 0]: zero stays zero. *)
Definition np_power (x y : R) : R :=
  if Req_dec_T x 0 then 0 else Rpower x y.

(** Floored modulo [x % m] of numpy and Python floats, for [m > 0]. *)
Definition np_mod (x m : R) : R := x - IZR (Int_part (x / m)) * m.

Definition clip_cell (p : rgb) : rgb :=
  RGB (np_clip (chR p) 0 1) (np_clip (chG p) 0 1) (np_clip (chB p) 0 1).

(** [for c in range(3): result[..., c] = f(lut[..., c])]. *)
Definition per_channel (f : R -> R) (p : rgb) : rgb :=
  RGB (f (chR p)) (f (chG p)) (f (chB p)).

(** [0.2126 * lut[..., 0] + 0.7152 * lut[..., 1] + 0.0722 * lut[..., 2]]. *)
Definition luminance (p : rgb) : R :=
  0.2126 * chR p + 0.7152 * chG p + 0.0722 * chB p.

(** The luminance of every cell, in grid order. *)
Definition luminances (lut : list (list (list rgb))) : list R :=
  map luminance (concat (concat lut)).

(** ** Global tone operators *)

(** The cell computed by a call that returns; for [ev >= 1024] the call
    raises instead, see [adjust_exposure_checked]. *)
Definition adjust_exposure_cell (ev : R) (p : rgb) : rgb :=
  let factor := Rpower 2 ev in
  clip_cell (per_channel (fun x => x * factor) p).

Definition adjust_exposure (lut : Grid) (ev : R) : Grid :=
  grid_map (adjust_exposure_cell ev) lut.

(** [2.0 ** ev] as Python computes it: a result too large for a double
    raises [OverflowError], which is the case from [ev = 1024] on. *)
Definition float_pow2 (ev : R) : result R :=
  if Rle_dec 1024 ev then Raise OverflowError else Ok (Rpower 2 ev).

(** [adjust_exposure] with the exception of its first line: the grid above
    is what the call returns when it returns. *)
Definition adjust_exposure_checked (lut : Grid) (ev : R) : result Grid :=
  factor <- float_pow2 ev ;;
  Ok (grid_map
        (fun p => clip_cell (per_channel (fun x => x * factor) p)) lut).

Definition adjust_contrast_cell (amount : R) (p : rgb) : rgb :=
  let t := amount / 100 in
  let mid := 0.5 in
  let p' :=
    if Rlt_dec 0 t
    then per_channel (fun x => mid + (x - mid) * (1 + t * 0.8)) p
    else per_channel (fun x => mid + (x - mid) * (1 + t * 0.5)) p in
  clip_cell p'.

Definition adjust_contrast (lut : Grid) (amount : R) : Grid :=
  grid_map (adjust_contrast_cell amount) lut.

Definition adjust_saturation_cell (amount : R) (p : rgb) : rgb :=
  let t := 1 + amount / 100 in
  let lum := luminance p in
  clip_cell (per_channel (fun x => lum + (x - lum) * t) p).

Definition adjust_saturation (lut : Grid) (amount : R) : Grid :=
  grid_map (adjust_saturation_cell amount) lut.

Definition adjust_vibrance_cell (amount : R) (p : rgb) : rgb :=
  let t := amount / 100 in
  let lum := luminance p in
  clip_cell
    (per_channel
       (fun x =>
          let sat := Rabs (x - lum) in
          let boost := 1 + t * (1 - np_clip (sat * 3) 0 1) in
          lum + (x - lum) * boost) p).

Definition adjust_vibrance (lut : Grid) (amount : R) : Grid :=
  grid_map (adjust_vibrance_cell amount) lut.

Definition adjust_highlights_cell (amount : R) (p : rgb) : rgb :=
  let t := amount / 100 in
  let lum := luminance p in
  let mask := np_power (np_clip ((lum - 0.5) * 2) 0 1) 1.5 in
  clip_cell (per_channel (fun x => x + mask * t * 0.3) p).

Definition adjust_highlights (lut : Grid) (amount : R) : Grid :=
  grid_map (adjust_highlights_cell amount) lut.

Definition adjust_shadows_cell (amount : R) (p : rgb) : rgb :=
  let t := amount / 100 in
  let lum := luminance p in
  let mask := np_power (np_clip (1 - lum * 2) 0 1) 1.5 in
  clip_cell (per_channel (fun x => x + mask * t * 0.3) p).

Definition adjust_shadows (lut : Grid) (amount : R) : Grid :=
  grid_map (adjust_shadows_cell amount) lut.

Definition adjust_whites_cell (amount : R) (p : rgb) : rgb :=
  let t := amount / 100 in
  let lum := luminance p in
  let mask := (np_clip ((lum - 0.7) * 3.3) 0 1) ^ 2 in
  clip_cell (per_channel (fun x => x + mask * t * 0.25) p).

Definition adjust_whites (lut : Grid) (amount : R) : Grid :=
  grid_map (adjust_whites_cell amount) lut.

Definition adjust_blacks_cell (amount : R) (p : rgb) : rgb :=
  let t := amount / 100 in
  let lum := luminance p in
  let mask := (np_clip (1 - lum * 3.3) 0 1) ^ 2 in
  clip_cell (per_channel (fun x => x + mask * t * 0.2) p).

Definition adjust_blacks (lut : Grid) (amount : R) : Grid :=
  grid_map (adjust_blacks_cell amount) lut.

Definition adjust_temperature_cell (amount : R) (p : rgb) : rgb :=
  let t := amount / 100 in
  clip_cell (RGB (chR p + t * 0.06) (chG p + t * 0.015) (chB p - t * 0.06)).

Definition adjust_temperature (lut : Grid) (amount : R) : Grid :=
  grid_map (adjust_temperature_cell amount) lut.

Definition adjust_tint_cell (amount : R) (p : rgb) : rgb :=
  let t := amount / 100 in
  clip_cell (RGB (chR p + t * 0.02) (chG p - t * 0.04) (chB p + t * 0.02)).

Definition adjust_tint (lut : Grid) (amount : R) : Grid :=
  grid_map (adjust_tint_cell amount) lut.

Definition lift_blacks_cell (amount : R) (p : rgb) : rgb :=
  clip_cell (per_channel (fun x => amount + x * (1 - amount)) p).

Definition lift_blacks (lut : Grid) (amount : R) : Grid :=
  grid_map (lift_blacks_cell amount) lut.

(** ** Hue-range selective adjustment *)

Definition Rltb (x y : R) : bool := if Rlt_dec x y then true else false.
Definition Rleb (x y : R) : bool := if Rle_dec x y then true else false.
Definition Reqb (x y : R) : bool := if Req_dec_T x y then true else false.

(** Hue in degrees.  The three masked assignments of the source run in the
    order red, green, blue, so a later mask wins where two of them hold. *)
Definition hsl_hue (p : rgb) : R :=
  let r := chR p in
  let g := chG p in
  let b := chB p in
  let cmax := Rmax (Rmax r g) b in
  let cmin := Rmin (Rmin r g) b in
  let delta := cmax - cmin in
  let mask_r := Reqb cmax r && Rltb 0.001 delta in
  let mask_g := Reqb cmax g && Rltb 0.001 delta in
  let mask_b := Reqb cmax b && Rltb 0.001 delta in
  let hue := 0 in
  let hue := if mask_r then 60 * np_mod ((g - b) / delta) 6 else hue in
  let hue := if mask_g then 60 * ((b - r) / delta + 2) else hue in
  let hue := if mask_b then 60 * ((r - g) / delta + 4) else hue in
  np_mod hue 360.

Definition hsl_saturation (p : rgb) : R :=
  let cmax := Rmax (Rmax (chR p) (chG p)) (chB p) in
  let cmin := Rmin (Rmin (chR p) (chG p)) (chB p) in
  let delta := cmax - cmin in
  if Rltb 0.001 cmax then delta / cmax else 0.

(** Computed by the source but not used afterwards. *)
Definition hsl_lightness (p : rgb) : R :=
  let cmax := Rmax (Rmax (chR p) (chG p)) (chB p) in
  let cmin := Rmin (Rmin (chR p) (chG p)) (chB p) in
  (cmax + cmin) / 2.

(** The mask over the target hue range, before it is scaled by saturation. *)
Definition hue_window (target_hue_range : R * R) (hue : R) : R :=
  let '(h_min, h_max) := target_hue_range in
  if Rlt_dec h_min h_max then
    let center := (h_min + h_max) / 2 in
    let width := (h_max - h_min) / 2 in
    let dist := Rabs (hue - center) in
    np_clip (1 - (dist - width * 0.6) / (width * 0.4)) 0 1
  else
    let in_range := Rleb h_min hue || Rleb hue h_max in
    if in_range then 1 else 0.

Definition hsl_strength (target_hue_range : R * R) (p : rgb) : R :=
  hue_window target_hue_range (hsl_hue p)
  * np_clip (hsl_saturation p * 3) 0 1.

Definition hsl_adjust_cell (target_hue_range : R * R)
    (hue_shift sat_shift lum_shift : R) (p : rgb) : rgb :=
  let result := p in
  let saturation := hsl_saturation p in
  let strength := hsl_strength target_hue_range p in
  let result :=
    if Req_dec_T sat_shift 0 then result
    else
      let new_sat := np_clip (saturation * (1 + sat_shift)) 0 1 in
      let sat_factor :=
        if Rltb 0.001 saturation then new_sat / saturation else 1 in
      let sat_factor := strength * sat_factor + (1 - strength) * 1 in
      let lum := luminance p in
      per_channel (fun x => lum + (x - lum) * sat_factor) p in
  let result :=
    if Req_dec_T lum_shift 0 then result
    else per_channel (fun x => x + strength * lum_shift * 0.15) result in
  let result :=
    if Req_dec_T hue_shift 0 then result
    else
      let angle := hue_shift * PI / 180 in
      let cos_a := cos angle in
      let sin_a := sin angle in
      let lum := luminance result in
      let r_c := chR result - lum in
      let g_c := chG result - lum in
      let b_c := chB result - lum in
      let nr := r_c * cos_a + g_c * sin_a * 0.5 in
      let ng := g_c * cos_a - r_c * sin_a * 0.3 + b_c * sin_a * 0.3 in
      let nb := b_c * cos_a - g_c * sin_a * 0.5 in
      RGB (chR result + strength * (nr - r_c) * 0.5)
          (chG result + strength * (ng - g_c) * 0.5)
          (chB result + strength * (nb - b_c) * 0.5) in
  clip_cell result.

Definition hsl_adjust (lut : Grid) (target_hue_range : R * R)
    (hue_shift sat_shift lum_shift : R) : Grid :=
  grid_map (hsl_adjust_cell target_hue_range hue_shift sat_shift lum_shift) lut.

(** ** Split toning *)

Definition split_tone_cell (shadow_rgb highlight_rgb : rgb) (balance : R)
    (p : rgb) : rgb :=
  let lum := luminance p in
  let shadow_mask := np_power (np_clip (1 - lum * 2) 0 1) 1.2 in
  let highlight_mask := np_power (np_clip ((lum - 0.5) * 2) 0 1) 1.2 in
  let tone (x s h : R) :=
    x + shadow_mask * (s - 0.5) * 0.15 + highlight_mask * (h - 0.5) * 0.15 in
  clip_cell
    (RGB (tone (chR p) (chR shadow_rgb) (chR highlight_rgb))
         (tone (chG p) (chG shadow_rgb) (chG highlight_rgb))
         (tone (chB p) (chB shadow_rgb) (chB highlight_rgb))).

Definition split_tone (lut : Grid) (shadow_rgb highlight_rgb : rgb)
    (balance : R) : Grid :=
  grid_map (split_tone_cell shadow_rgb highlight_rgb balance) lut.

(** Default of the keyword argument [balance]. *)
Definition balance_default : R := 0.5.

(** ** Tone curve *)

(** Python's [sorted(points, key=lambda p: p[0])]: a stable sort, here by
    insertion; a point goes before the first point whose input is not
    smaller, so equal inputs keep their order. *)
Fixpoint insert_point (q : R * R) (l : list (R * R)) : list (R * R) :=
  match l with
  | [] => [q]
  | p :: l' =>
      if Rlt_dec (fst p) (fst q) then p :: insert_point q l' else q :: p :: l'
  end.

Fixpoint sorted (points : list (R * R)) : list (R * R) :=
  match points with
  | [] => []
  | q :: l => insert_point q (sorted l)
  end.

(** Sortedness by input.  Every point of [l] has an input at least that of [q]. *)
Definition above (q : R * R) (l : list (R * R)) : Prop :=
  Forall (fun p => fst q <= fst p) l.

(** The inputs never decrease along the list. *)
Inductive ascending : list (R * R) -> Prop :=
| ascending_nil : ascending []
| ascending_cons q l : above q l -> ascending l -> ascending (q :: l).

(** The values never decrease along the list. *)
Fixpoint nondecreasing (l : list R) : Prop :=
  match l with
  | [] => True
  | a :: l' =>
      match l' with
      | [] => True
      | b :: _ => a <= b
      end /\ nondecreasing l'
  end.

(** One sample of [np.interp] at [x >= x0]: find the last sample point not
    above [x]; on the last point, or exactly on a point, take its value,
    otherwise interpolate towards the next one. *)
Fixpoint interp_from (x x0 y0 : R) (xp fp : list R) : R :=
  match xp, fp with
  | x1 :: xp', y1 :: fp' =>
      if Rlt_dec x x1 then
        if Req_dec_T x x0 then y0
        else (y1 - y0) / (x1 - x0) * (x - x0) + y0
      else interp_from x x1 y1 xp' fp'
  | _, _ => y0
  end.

(** Below the first sample point the result is the first value. *)
Definition interp_point (x0 y0 : R) (xp fp : list R) (x : R) : R :=
  if Rlt_dec x x0 then y0 else interp_from x x0 y0 xp fp.

Definition Array3 : Type := list (list (list R)).

(** [np.interp(x, xp, fp)] over an array [x]; an empty [xp] and sample lists
    of different lengths raise [ValueError]. *)
Definition np_interp (x : Array3) (xp fp : list R) : result Array3 :=
  match xp, fp with
  | x0 :: xp', y0 :: fp' =>
      if (length xp' =? length fp')%nat then
        Ok (map (map (map (interp_point x0 y0 xp' fp'))) x)
      else Raise ValueError
  | _, _ => Raise ValueError
  end.

Definition apply_curve (x : Array3) (points : list (R * R)) : result Array3 :=
  let points := sorted points in
  let xs := map fst points in
  let ys := map snd points in
  np_interp x xs ys.

(** The value [apply_curve] computes at one sample [x], for a curve with at
    least one control point. *)
Definition curve_value (points : list (R * R)) (x : R) : R :=
  match sorted points with
  | [] => 0
  | p :: rest => interp_point (fst p) (snd p) (map fst rest) (map snd rest) x
  end.

(** Channel [c] of a cell; the presets only use [c] in [range(3)]. *)
Definition get_ch (c : nat) (p : rgb) : R :=
  match c with
  | O => chR p
  | S O => chG p
  | _ => chB p
  end.

Definition set_ch (c : nat) (v : R) (p : rgb) : rgb :=
  match c with
  | O => RGB v (chG p) (chB p)
  | S O => RGB (chR p) v (chB p)
  | _ => RGB (chR p) (chG p) v
  end.

(** The view [lut[..., c]]. *)
Definition channel (c : nat) (lut : Grid) : Array3 :=
  map (map (map (get_ch c))) lut.

Fixpoint zip_with {A B C : Type} (f : A -> B -> C) (la : list A) (lb : list B)
  : list C :=
  match la, lb with
  | a :: la', b :: lb' => f a b :: zip_with f la' lb'
  | _, _ => []
  end.

(** The assignment [lut[..., c] = a] for an array [a] of the shape of [lut]. *)
Definition set_channel (c : nat) (a : Array3) (lut : Grid) : Grid :=
  zip_with (zip_with (zip_with (set_ch c))) a lut.

(** [for c in range(3): lut[..., c] = apply_curve(lut[..., c], points)]. *)
Definition curve_channels (lut : Grid) (points : list (R * R)) : result Grid :=
  for_each (range 3) (fun c lut =>
    a <- apply_curve (channel c lut) points ;;
    Ok (set_channel c a lut)) lut.

(** ** LUT encoder *)

Definition nl : string := String "010"%char EmptyString.
Definition dquote : string := String "034"%char EmptyString.

(** [f'{n}'] for a non-negative integer. *)
Definition str_nat (n : nat) : string := NilZero.string_of_uint (Nat.to_uint n).

(** Nearest integer, ties to even: the rounding of a printed decimal. *)
Definition round_half_even (x : R) : Z :=
  let f := Int_part x in
  let d := x - IZR f in
  if Rlt_dec d 0.5 then f
  else if Rlt_dec 0.5 d then (f + 1)%Z
  else if Z.even f then f else (f + 1)%Z.

Definition digit (d : Z) : ascii := ascii_of_nat (48 + Z.to_nat d).

Definition frac6 (k : Z) : string :=
  String (digit ((k / 100000) mod 10))
 (String (digit ((k / 10000) mod 10))
 (String (digit ((k / 1000) mod 10))
 (String (digit ((k / 100) mod 10))
 (String (digit ((k / 10) mod 10))
 (String (digit (k mod 10)) EmptyString))))).

(** [f'{x:.6f}']: sign, integer part, a dot and six decimals. *)
Definition format_6f (x : R) : string :=
  let k := round_half_even (Rabs x * 1000000) in
  ((if Rlt_dec x 0 then "-" else EmptyString)
   ++ NilZero.string_of_uint (N.to_uint (Z.to_N (k / 1000000)))
   ++ "." ++ frac6 (k mod 1000000))%string.

Definition data_line (p : rgb) : string :=
  (format_6f (chR p) ++ " " ++ format_6f (chG p) ++ " " ++ format_6f (chB p)
   ++ nl)%string.

(** A decimal digit. *)
Definition is_digit (c : ascii) : Prop := (48 <= nat_of_ascii c <= 57)%nat.

(** A numeral in [[0,1]] printed with six decimals: ["0"] or ["1"], a dot,
    six digits. *)
Definition six_decimals (s : string) : Prop :=
  exists ip frac : string,
    s = (ip ++ "." ++ frac)%string /\
    (ip = "0"%string \/ ip = "1"%string) /\
    String.length frac = 6%nat /\
    Forall is_digit (list_ascii_of_string frac).

(** The five header lines of a [.cube] file. *)
Definition cube_header (title : string) (size : nat) : list string :=
  [("TITLE " ++ dquote ++ title ++ dquote ++ nl)%string;
   ("LUT_3D_SIZE " ++ str_nat size ++ nl)%string;
   ("DOMAIN_MIN 0.0 0.0 0.0" ++ nl)%string;
   ("DOMAIN_MAX 1.0 1.0 1.0" ++ nl)%string;
   nl].

(** The file is the sequence of strings written to it so far. *)
Definition file : Type := list string.

Definition write (f : file) (s : string) : file := f ++ [s].

(** [lut[b, g, r]] as an expression: out of range raises [IndexError]. *)
Definition index3 (lut : Grid) (b g r : nat) : result rgb :=
  match grid_get lut b g r with
  | Some p => Ok p
  | None => Raise IndexError
  end.

(** The content written to the file opened at the given path; the path itself
    plays no part in what is written. *)
Definition write_cube (lut : Grid) (title : string) : result file :=
  let size := Z.of_nat (length lut) in
  let f : file := [] in
  let f := write f ("TITLE " ++ dquote ++ title ++ dquote ++ nl)%string in
  let f := write f ("LUT_3D_SIZE " ++ str_nat (length lut) ++ nl)%string in
  let f := write f ("DOMAIN_MIN 0.0 0.0 0.0" ++ nl)%string in
  let f := write f ("DOMAIN_MAX 1.0 1.0 1.0" ++ nl)%string in
  let f := write f nl in
  for_each (range size) (fun b f =>
    for_each (range size) (fun g f =>
      for_each (range size) (fun r f =>
        rgb <- index3 lut b g r ;;
        Ok (write f (data_line rgb))) f) f) f.

(** ** Presets *)

Definition generate_vintage : result Grid :=
  lut <- identity_lut LUT_SIZE ;;
  let lut := adjust_exposure lut 0.5 in
  let lut := adjust_contrast lut (-20) in
  let lut := adjust_shadows lut 40 in
  let lut := adjust_temperature lut 12 in
  let lut := adjust_tint lut 8 in
  let lut := lift_blacks lut 0.06 in
  let lut := hsl_adjust lut (15, 45) 0 (-0.10) 0.20 in
  let lut := split_tone lut (RGB 0.55 0.48 0.42) (RGB 0.55 0.52 0.45)
               balance_default in
  curve_channels lut
    [(0.0, 0.05); (0.15, 0.18); (0.5, 0.52); (0.85, 0.87); (1.0, 0.98)].

Definition generate_mood : result Grid :=
  lut <- identity_lut LUT_SIZE ;;
  let lut := adjust_contrast lut 25 in
  let lut := adjust_highlights lut (-50) in
  let lut := adjust_whites lut (-15) in
  let lut := adjust_blacks lut (-10) in
  let lut := adjust_saturation lut (-20) in
  let lut := hsl_adjust lut (75, 165) 0 (-0.80) 0 in
  let lut := hsl_adjust lut (180, 260) 0 (-0.80) 0 in
  let lut := split_tone lut (RGB 0.45 0.52 0.55) (RGB 0.52 0.50 0.48)
               balance_default in
  curve_channels lut
    [(0.0, 0.0); (0.20, 0.15); (0.40, 0.38); (0.60, 0.63); (0.80, 0.82);
     (1.0, 0.95)].

Definition generate_lush : result Grid :=
  lut <- identity_lut LUT_SIZE ;;
  let lut := adjust_temperature lut 15 in
  let lut := adjust_vibrance lut 20 in
  let lut := adjust_shadows lut 25 in
  let lut := hsl_adjust lut (200, 260) (-25) 0 (-0.10) in
  let lut := hsl_adjust lut (40, 70) (-15) 0 0 in
  let lut := hsl_adjust lut (15, 40) 0 0.10 0.10 in
  let lut := split_tone lut (RGB 0.52 0.50 0.45) (RGB 0.55 0.52 0.47)
               balance_default in
  curve_channels lut
    [(0.0, 0.02); (0.25, 0.22); (0.50, 0.52); (0.75, 0.78); (1.0, 1.0)].

Definition generate_dream : result Grid :=
  lut <- identity_lut LUT_SIZE ;;
  let lut := adjust_exposure lut 0.7 in
  let lut := adjust_highlights lut (-20) in
  let lut := adjust_shadows lut 30 in
  let lut := adjust_contrast lut (-30) in
  let lut := adjust_saturation lut (-10) in
  let lut := adjust_tint lut 10 in
  let lut := lift_blacks lut 0.08 in
  let lut := hsl_adjust lut (300, 360) 0 0.15 0.05 in
  let lut := hsl_adjust lut (0, 20) 0 0.10 0.05 in
  let lut := split_tone lut (RGB 0.52 0.48 0.55) (RGB 0.54 0.52 0.50)
               balance_default in
  curve_channels lut
    [(0.0, 0.07); (0.20, 0.22); (0.50, 0.53); (0.80, 0.82); (1.0, 0.95)].

Definition generate_golden : result Grid :=
  lut <- identity_lut LUT_SIZE ;;
  let lut := adjust_exposure lut 0.3 in
  let lut := adjust_temperature lut 18 in
  let lut := adjust_tint lut 5 in
  let lut := adjust_shadows lut 20 in
  let lut := adjust_highlights lut (-30) in
  let lut := adjust_vibrance lut 15 in
  let lut := hsl_adjust lut (15, 45) 0 0.15 0.15 in
  let lut := hsl_adjust lut (40, 70) (-10) 0.10 0 in
  let lut := split_tone lut (RGB 0.55 0.50 0.42) (RGB 0.56 0.53 0.45)
               balance_default in
  curve_channels lut
    [(0.0, 0.03); (0.25, 0.24); (0.50, 0.53); (0.75, 0.78); (1.0, 0.97)].

(** ** Driver *)

(** The calls the script makes to the operating system, over whatever state
    [fs] the system keeps.  Each of them may raise [OSError]: the output
    directory may exist as a regular file, a permission may be missing, the
    disk may be full. *)
Record os_calls (fs : Type) : Type := OsCalls {
  (** [os.makedirs(d, exist_ok=True)] *)
  os_makedirs : fs -> string -> result fs;
  (** [open(path, 'w')] *)
  os_open_w : fs -> string -> result fs;
  (** the writes to the file open at [path], and its closing *)
  os_write_close : fs -> string -> file -> result fs
}.

Arguments os_makedirs {fs} _ _ _.
Arguments os_open_w {fs} _ _ _.
Arguments os_write_close {fs} _ _ _ _.

(** What a run changes outside the script: the strings printed, one per call
    of [print], and the state of the operating system. *)
Record world (fs : Type) : Type := World {
  stdout : list string;
  disk : fs
}.

Arguments World {fs} _ _.
Arguments stdout {fs} _.
Arguments disk {fs} _.

(** [print(s)]: the string and a newline. *)
Definition print {fs : Type} (w : world fs) (s : string) : world fs :=
  World (stdout w ++ [(s ++ nl)%string]) (disk w).

(** [os.path.join(d, name)] for a directory path without a trailing
    separator and a relative name. *)
Definition path_join (d name : string) : string := (d ++ "/" ++ name)%string.

(** [write_cube(lut, filepath, title)] on the operating system: the file is
    opened first, then the strings of [write_cube] are written to it and it
    is closed. *)
Definition write_cube_at {fs : Type} (os : os_calls fs) (d : fs)
    (lut : Grid) (filepath title : string) : result fs :=
  d <- os_open_w os d filepath ;;
  content <- write_cube lut title ;;
  os_write_close os d filepath content.

(** The dictionary of the driver, in insertion order: file name, display
    title and generator. *)
Definition presets : list (string * (string * result Grid)) :=
  [("ft_vintage"%string, ("Vintage"%string, generate_vintage));
   ("ft_mood"%string, ("Mood"%string, generate_mood));
   ("ft_lush"%string, ("Lush"%string, generate_lush));
   ("ft_dream"%string, ("Dream"%string, generate_dream));
   ("ft_golden"%string, ("Golden Hour"%string, generate_golden))].

(** One round of the driver's loop.  An exception aborts the run, and the
    result is then the exception alone. *)
Definition run_preset {fs : Type} (os : os_calls fs) (output_dir : string)
    (entry : string * (string * result Grid)) (w : world fs)
  : result (world fs) :=
  let filename := fst entry in
  let title := fst (snd entry) in
  let gen_func := snd (snd entry) in
  let w := print w ("Generating " ++ title ++ "...")%string in
  lut <- gen_func ;;
  let filepath := path_join output_dir (filename ++ ".cube")%string in
  d <- write_cube_at os (disk w) lut filepath title ;;
  let w := World (stdout w) d in
  Ok (print w ("  -> " ++ filepath)%string).

(** The [__main__] block, for the output directory the script computes from
    its own location. *)
Definition main {fs : Type} (os : os_calls fs) (output_dir : string)
    (w : world fs) : result (world fs) :=
  d <- os_makedirs os (disk w) output_dir ;;
  let w := World (stdout w) d in
  w <- for_each presets (run_preset os output_dir) w ;;
  Ok (print w (nl ++ "Done! 5 Featured LUTs generated.")%string).

(** The calls that open and write a list of files in a directory, in
    order, stopping at the first that raises. *)
Fixpoint store_all {fs : Type} (os : os_calls fs) (output_dir : string)
    (items : list (string * file)) (d : fs) : result fs :=
  match items with
  | [] => Ok d
  | item :: rest =>
      d <- os_open_w os d (path_join output_dir (fst item)) ;;
      d <- os_write_close os d (path_join output_dir (fst item)) (snd item) ;;
      store_all os output_dir rest d
  end.

(** An operating system on which no call fails and a file is its content,
    to exhibit a run. *)
Definition plain_os : os_calls (list (string * file)) :=
  OsCalls (list (string * file))
    (fun d _ => Ok d)
    (fun d path => Ok ((path, []) :: d))
    (fun d path content => Ok ((path, content) :: d)).

(** * Properties *)

Example str_nat_33 : str_nat 33 = "33"%string.
Proof. reflexivity. Qed.
Example str_nat_0 : str_nat 0 = "0"%string.
Proof. reflexivity. Qed.

(** ** Loops that fill a list position by position *)

Lemma nth_error_mid {A : Type} (l1 l2 : list A) (x : A) :
  nth_error (l1 ++ x :: l2) (length l1) = Some x.
Proof.
  induction l1 as [|a l1 IH]; simpl; [reflexivity | exact IH].
Qed.

Lemma list_set_mid {A : Type} (l1 l2 : list A) (x v : A) :
  list_set (length l1) v (l1 ++ x :: l2) = l1 ++ v :: l2.
Proof.
  induction l1 as [|a l1 IH]; simpl; [reflexivity | now rewrite IH].
Qed.

Lemma nth_error_map_seq {A : Type} (f : nat -> A) (n i : nat) :
  (i < n)%nat -> nth_error (map f (seq 0 n)) i = Some (f i).
Proof.
  intros Hi.
  rewrite nth_error_map, nth_error_seq.
  destruct (Nat.ltb_spec i n) as [_|Hge]; [reflexivity | lia].
Qed.

Section FillLoop.
Context {A S : Type}.
Variable embed : list A -> S.
Variable body : nat -> S -> result S.
Variable h : nat -> A.
Variable P : A -> Prop.
Hypothesis body_step :
  forall done t todo,
    P t ->
    body (length done) (embed (done ++ t :: todo))
    = Ok (embed (done ++ h (length done) :: todo)).

Lemma for_each_fill (todo done : list A) :
  Forall P todo ->
  for_each (seq (length done) (length todo)) body (embed (done ++ todo))
  = Ok (embed (done ++ map h (seq (length done) (length todo)))).
Proof.
  revert done.
  induction todo as [|t todo IH]; intros done HP; simpl.
  - reflexivity.
  - inversion HP as [|? ? Ht Htodo]; subst.
    rewrite body_step by assumption. simpl.
    specialize (IH (done ++ [h (length done)]) Htodo).
    rewrite <- !app_assoc in IH. simpl in IH.
    rewrite length_app in IH. simpl in IH.
    rewrite Nat.add_1_r in IH.
    exact IH.
Qed.
End FillLoop.

Lemma set_cell_mid (P1 P2 : list (list (list rgb))) (R1 R2 : list (list rgb))
    (done todo : list rgb) (t v : rgb) :
  set_cell (P1 ++ (R1 ++ (done ++ t :: todo) :: R2) :: P2)
           (length P1) (length R1) (length done) v
  = Ok (P1 ++ (R1 ++ (done ++ v :: todo) :: R2) :: P2).
Proof.
  unfold set_cell.
  rewrite nth_error_mid, nth_error_mid.
  assert (Hlt : (length done <? length (done ++ t :: todo))%nat = true).
  { apply Nat.ltb_lt. rewrite length_app. simpl. lia. }
  rewrite Hlt.
  now rewrite !list_set_mid.
Qed.

Lemma identity_cell_ok (size : Z) (b g r : nat) :
  (size - 1 <> 0)%Z ->
  identity_cell size b g r
  = Ok (RGB (IZR (Z.of_nat r) / IZR (size - 1))
            (IZR (Z.of_nat g) / IZR (size - 1))
            (IZR (Z.of_nat b) / IZR (size - 1))).
Proof.
  intros Hne. unfold identity_cell, py_div.
  apply Z.eqb_neq in Hne. rewrite Hne. reflexivity.
Qed.

Lemma identity_lut_table (size : Z) :
  (2 <= size)%Z -> identity_lut size = Ok (identity_table size).
Proof.
  intros Hsize.
  unfold identity_lut, np_zeros, identity_table, range.
  destruct (Z.ltb_spec size 0) as [Hneg|_]; [lia|].
  simpl bind.
  set (n := Z.to_nat size).
  set (cell := fun b g r : nat =>
         RGB (IZR (Z.of_nat r) / IZR (size - 1))
             (IZR (Z.of_nat g) / IZR (size - 1))
             (IZR (Z.of_nat b) / IZR (size - 1))).
  set (row0 := repeat (RGB 0 0 0) n).
  set (plane0 := repeat row0 n).
  assert (Hrow0 : length row0 = n) by apply repeat_length.
  assert (Hplane0 : Forall (fun row => length row = n) plane0).
  { apply Forall_forall. intros row Hin.
    apply repeat_spec in Hin. now subst row. }
  assert (Hplane0_len : length plane0 = n) by apply repeat_length.
  pose proof (for_each_fill (A := list (list rgb)) (fun l => l)
                (fun b lut =>
                   for_each (seq 0 n) (fun g lut =>
                     for_each (seq 0 n) (fun r lut =>
                       v <- identity_cell size b g r ;;
                       set_cell lut b g r v) lut) lut)
                (fun b => map (fun g => map (cell b g) (seq 0 n)) (seq 0 n))
                (fun plane => length plane = n /\
                              Forall (fun row => length row = n) plane))
    as Houter.
  specialize (Houter) with (todo := repeat plane0 n) (done := []).
  simpl in Houter. rewrite repeat_length in Houter.
  apply Houter.
  - clear Houter. intros P1 plane P2 [Hlen Hrows].
    pose proof (for_each_fill (A := list rgb)
                  (fun pl => P1 ++ pl :: P2)
                  (fun g lut =>
                     for_each (seq 0 n) (fun r lut =>
                       v <- identity_cell size (length P1) g r ;;
                       set_cell lut (length P1) g r v) lut)
                  (fun g => map (cell (length P1) g) (seq 0 n))
                  (fun row => length row = n)) as Hmid.
    specialize (Hmid) with (todo := plane) (done := []).
    simpl in Hmid. rewrite Hlen in Hmid.
    apply Hmid; [|exact Hrows].
    clear Hmid. intros R1 row R2 Hrow.
    pose proof (for_each_fill (A := rgb)
                  (fun rw => P1 ++ (R1 ++ rw :: R2) :: P2)
                  (fun r lut =>
                     v <- identity_cell size (length P1) (length R1) r ;;
                     set_cell lut (length P1) (length R1) r v)
                  (cell (length P1) (length R1))
                  (fun _ => True)) as Hin.
    specialize (Hin) with (todo := row) (done := []).
    simpl in Hin. rewrite Hrow in Hin.
    apply Hin; [|apply Forall_forall; trivial].
    intros done t todo _.
    rewrite identity_cell_ok by lia. simpl bind.
    apply set_cell_mid.
  - apply Forall_forall. intros plane Hin.
    apply repeat_spec in Hin. subst plane. split; assumption.
Qed.

Lemma identity_table_get (size : Z) (bi gi ri : nat) :
  (Z.of_nat bi < size)%Z -> (Z.of_nat gi < size)%Z -> (Z.of_nat ri < size)%Z ->
  grid_get (identity_table size) bi gi ri
  = Some (RGB (IZR (Z.of_nat ri) / IZR (size - 1))
              (IZR (Z.of_nat gi) / IZR (size - 1))
              (IZR (Z.of_nat bi) / IZR (size - 1))).
Proof.
  intros Hb Hg Hr.
  unfold grid_get, identity_table, range.
  rewrite nth_error_map_seq by lia.
  rewrite nth_error_map_seq by lia.
  rewrite nth_error_map_seq by lia.
  reflexivity.
Qed.

Lemma identity_table_shape (size : Z) :
  shape (Z.to_nat size) (identity_table size).
Proof.
  unfold shape, identity_table, range. split.
  - now rewrite length_map, length_seq.
  - apply Forall_forall. intros plane Hin.
    apply in_map_iff in Hin. destruct Hin as [b [<- _]]. split.
    + now rewrite length_map, length_seq.
    + apply Forall_forall. intros row Hin.
      apply in_map_iff in Hin. destruct Hin as [g [<- _]].
      now rewrite length_map, length_seq.
Qed.

(** C3.  For every size [N >= 2], [identity_lut N] returns a grid whose cell
    at index [(bi, gi, ri)], for all indices below [N], is the triple
    [(ri/(N-1), gi/(N-1), bi/(N-1))]. *)
Theorem identity_lut_cells (N : Z) (HN : (2 <= N)%Z) :
  exists lut,
    identity_lut N = Ok lut /\
    forall bi gi ri : nat,
      (Z.of_nat bi < N)%Z -> (Z.of_nat gi < N)%Z -> (Z.of_nat ri < N)%Z ->
      grid_get lut bi gi ri
      = Some (RGB (IZR (Z.of_nat ri) / IZR (N - 1))
                  (IZR (Z.of_nat gi) / IZR (N - 1))
                  (IZR (Z.of_nat bi) / IZR (N - 1))).
Proof.
  exists (identity_table N). split.
  - now apply identity_lut_table.
  - intros bi gi ri. apply identity_table_get.
Qed.

Lemma identity_lut_cells_witness :
  exists lut,
    identity_lut 2 = Ok lut /\
    grid_get lut 1 0 1 = Some (RGB (1 / 1) (0 / 1) (1 / 1)).
Proof.
  destruct (identity_lut_cells 2 ltac:(lia)) as [lut [Hok Hget]].
  exists lut. split; [exact Hok|].
  apply (Hget 1%nat 0%nat 1%nat); simpl; lia.
Defined.

(** ** Sizes below two *)



(** ** Clamping *)

Lemma np_clip_unit (x : R) : unit_interval (np_clip x 0 1).
Proof.
  unfold unit_interval, np_clip. split.
  - apply Rmin_glb; [apply Rmax_r | lra].
  - apply Rmin_r.
Qed.

Lemma np_clip_id (x : R) : unit_interval x -> np_clip x 0 1 = x.
Proof.
  unfold unit_interval, np_clip. intros [H0 H1].
  rewrite Rmax_left by assumption. now rewrite Rmin_left.
Qed.

Lemma clip_cell_unit (p : rgb) : cell_unit (clip_cell p).
Proof.
  unfold cell_unit, clip_cell; simpl.
  repeat split; apply np_clip_unit.
Qed.

Lemma clip_cell_id (p : rgb) : cell_unit p -> clip_cell p = p.
Proof.
  destruct p as [r g b]. unfold cell_unit, clip_cell; simpl.
  intros [Hr [Hg Hb]]. now rewrite !np_clip_id.
Qed.

Lemma grid_map_unit (f : rgb -> rgb) (lut : Grid) :
  (forall p, cell_unit (f p)) -> grid_unit (grid_map f lut).
Proof.
  intros Hf. unfold grid_unit, grid_map.
  apply Forall_map, Forall_forall. intros plane _.
  apply Forall_map, Forall_forall. intros row _.
  apply Forall_map, Forall_forall. intros p _. apply Hf.
Qed.

Lemma grid_map_id_on (f : rgb -> rgb) (P : rgb -> Prop) (lut : Grid) :
  (forall p, P p -> f p = p) ->
  Forall (Forall (Forall P)) lut -> grid_map f lut = lut.
Proof.
  intros Hf Hlut. unfold grid_map.
  induction Hlut as [|plane lut Hplane _ IH]; simpl; [reflexivity|].
  f_equal; [|exact IH].
  induction Hplane as [|row plane Hrow _ IHp]; simpl; [reflexivity|].
  f_equal; [|exact IHp].
  induction Hrow as [|p row Hp _ IHr]; simpl; [reflexivity|].
  f_equal; [now apply Hf | exact IHr].
Qed.

Lemma grid_map_map (f g : rgb -> rgb) (lut : Grid) :
  grid_map f (grid_map g lut) = grid_map (fun p => f (g p)) lut.
Proof.
  unfold grid_map. rewrite map_map.
  apply map_ext. intros plane. rewrite map_map.
  apply map_ext. intros row. now rewrite map_map.
Qed.

Lemma grid_map_shape (f : rgb -> rgb) (n : nat) (lut : Grid) :
  shape n lut -> shape n (grid_map f lut).
Proof.
  unfold shape, grid_map. intros [Hlen Hall]. split.
  - now rewrite length_map.
  - apply Forall_map. eapply Forall_impl; [|exact Hall].
    intros plane [Hpl Hrows]. split.
    + now rewrite length_map.
    + apply Forall_map. eapply Forall_impl; [|exact Hrows].
      intros row Hrow. now rewrite length_map.
Qed.

(** ** The tone curve *)

Lemma zip_with_map_same {A B C : Type} (f : B -> A -> C) (g : A -> B)
    (l : list A) :
  zip_with f (map g l) l = map (fun a => f (g a) a) l.
Proof.
  induction l as [|a l IH]; simpl; [reflexivity | now rewrite IH].
Qed.

Lemma set_channel_map (c : nat) (F : R -> R) (lut : Grid) :
  set_channel c (map (map (map F)) (channel c lut)) lut
  = grid_map (fun p => set_ch c (F (get_ch c p)) p) lut.
Proof.
  unfold set_channel, channel, grid_map.
  rewrite map_map, zip_with_map_same.
  apply map_ext. intros plane.
  rewrite map_map, zip_with_map_same.
  apply map_ext. intros row.
  rewrite map_map, zip_with_map_same.
  reflexivity.
Qed.

Lemma insert_point_cons (q : R * R) (l : list (R * R)) :
  exists p rest, insert_point q l = p :: rest.
Proof.
  destruct l as [|p l]; simpl.
  - now exists q, [].
  - destruct (Rlt_dec (fst p) (fst q)); eauto.
Qed.

Lemma sorted_cons (points : list (R * R)) :
  points <> [] -> exists p rest, sorted points = p :: rest.
Proof.
  destruct points as [|q l]; [congruence|].
  intros _. simpl. apply insert_point_cons.
Qed.

Lemma insert_point_Forall (P : R * R -> Prop) (q : R * R) (l : list (R * R)) :
  P q -> Forall P l -> Forall P (insert_point q l).
Proof.
  intros Hq Hl. induction Hl as [|p l Hp Hl IH]; simpl.
  - constructor; [assumption | constructor].
  - destruct (Rlt_dec (fst p) (fst q)); constructor; auto.
Qed.

Lemma sorted_Forall (P : R * R -> Prop) (points : list (R * R)) :
  Forall P points -> Forall P (sorted points).
Proof.
  induction 1 as [|q l Hq Hl IH]; simpl;
    [constructor | now apply insert_point_Forall].
Qed.

Lemma apply_curve_ok (x : Array3) (points : list (R * R)) :
  points <> [] ->
  apply_curve x points = Ok (map (map (map (curve_value points))) x).
Proof.
  intros Hne. unfold apply_curve, curve_value, np_interp.
  destruct (sorted_cons points Hne) as [p [rest ->]]. simpl.
  rewrite !length_map, Nat.eqb_refl. reflexivity.
Qed.

Lemma curve_channels_ok (lut : Grid) (points : list (R * R)) :
  points <> [] ->
  curve_channels lut points
  = Ok (grid_map (per_channel (curve_value points)) lut).
Proof.
  intros Hne. unfold curve_channels.
  change (range 3) with [0%nat; 1%nat; 2%nat].
  cbn [for_each].
  rewrite apply_curve_ok by assumption. cbn [bind].
  rewrite apply_curve_ok by assumption. cbn [bind].
  rewrite apply_curve_ok by assumption. cbn [bind].
  rewrite !set_channel_map, !grid_map_map.
  reflexivity.
Qed.

Lemma interp_from_unit (xp fp : list R) (x x0 y0 : R) :
  x0 <= x -> unit_interval y0 -> Forall unit_interval fp ->
  unit_interval (interp_from x x0 y0 xp fp).
Proof.
  revert fp x0 y0.
  induction xp as [|x1 xp IH]; intros fp x0 y0 Hx Hy0 Hfp; simpl.
  - assumption.
  - destruct fp as [|y1 fp]; [assumption|].
    inversion Hfp as [|? ? Hy1 Hfp']; subst.
    destruct (Rlt_dec x x1) as [Hlt|Hge].
    + destruct (Req_dec_T x x0) as [_|Hne]; [assumption|].
      unfold unit_interval in *.
      assert (Hd : 0 < x1 - x0) by lra.
      assert (Hu : 0 <= (x - x0) / (x1 - x0) <= 1).
      { split.
        - apply Rmult_le_pos; [lra|]. left. now apply Rinv_0_lt_compat.
        - apply (Rmult_le_reg_r (x1 - x0)); [assumption|].
          unfold Rdiv. rewrite Rmult_assoc, Rinv_l by lra. lra. }
      replace ((y1 - y0) / (x1 - x0) * (x - x0) + y0)
        with ((y1 - y0) * ((x - x0) / (x1 - x0)) + y0)
        by (unfold Rdiv; ring).
      nra.
    + apply IH; [lra | assumption | assumption].
Qed.

Lemma curve_value_unit (points : list (R * R)) (x : R) :
  Forall (fun p => unit_interval (snd p)) points ->
  points <> [] ->
  unit_interval (curve_value points x).
Proof.
  intros Hys Hne. unfold curve_value.
  pose proof (sorted_Forall _ _ Hys) as Hs.
  destruct (sorted points) as [|p rest]; [unfold unit_interval; lra|].
  inversion Hs as [|? ? Hp Hrest]; subst.
  unfold interp_point.
  destruct (Rlt_dec x (fst p)) as [_|Hge]; [assumption|].
  apply interp_from_unit; [lra | assumption |].
  apply Forall_map. exact Hrest.
Qed.

Lemma curve_channels_unit (lut : Grid) (points : list (R * R)) :
  points <> [] ->
  Forall (fun p => unit_interval (snd p)) points ->
  exists lut',
    curve_channels lut points = Ok lut' /\ grid_unit lut'.
Proof.
  intros Hne Hys.
  exists (grid_map (per_channel (curve_value points)) lut). split.
  - now apply curve_channels_ok.
  - apply grid_map_unit. intros p.
    unfold cell_unit, per_channel; simpl.
    repeat split; now apply curve_value_unit.
Qed.

Lemma curve_channels_spec (n : nat) (lut : Grid) (points : list (R * R)) :
  points <> [] ->
  Forall (fun p => unit_interval (snd p)) points ->
  shape n lut ->
  exists lut',
    curve_channels lut points = Ok lut' /\ grid_unit lut' /\ shape n lut'.
Proof.
  intros Hne Hys Hshape.
  exists (grid_map (per_channel (curve_value points)) lut). repeat split.
  - now apply curve_channels_ok.
  - apply grid_map_unit. intros p.
    unfold cell_unit, per_channel; simpl.
    repeat split; now apply curve_value_unit.
  - apply grid_map_shape; apply Hshape.
  - apply grid_map_shape; exact Hshape.
Qed.

Lemma apply_curve_unit (x : Array3) (points : list (R * R)) :
  points <> [] ->
  Forall (fun p => unit_interval (snd p)) points ->
  exists a,
    apply_curve x points = Ok a /\ Forall (Forall (Forall unit_interval)) a.
Proof.
  intros Hne Hys.
  exists (map (map (map (curve_value points))) x). split.
  - now apply apply_curve_ok.
  - apply Forall_map, Forall_forall. intros plane _.
    apply Forall_map, Forall_forall. intros row _.
    apply Forall_map, Forall_forall. intros v _.
    now apply curve_value_unit.
Qed.

(** ** The presets run to completion *)

Ltac unit_points :=
  repeat constructor; simpl; unfold unit_interval; lra.

Ltac operator_shapes :=
  unfold adjust_exposure, adjust_contrast, adjust_saturation, adjust_vibrance,
    adjust_highlights, adjust_shadows, adjust_whites, adjust_blacks,
    adjust_temperature, adjust_tint, lift_blacks, hsl_adjust, split_tone;
  repeat apply grid_map_shape;
  apply identity_table_shape.

Ltac preset_runs :=
  rewrite identity_lut_table by (unfold LUT_SIZE; lia);
  cbn [bind];
  apply curve_channels_spec; [discriminate | unit_points | operator_shapes].

Lemma generate_vintage_runs :
  exists lut, generate_vintage = Ok lut /\
              grid_unit lut /\ shape (Z.to_nat LUT_SIZE) lut.
Proof. unfold generate_vintage. preset_runs. Qed.

Lemma generate_mood_runs :
  exists lut, generate_mood = Ok lut /\
              grid_unit lut /\ shape (Z.to_nat LUT_SIZE) lut.
Proof. unfold generate_mood. preset_runs. Qed.

Lemma generate_lush_runs :
  exists lut, generate_lush = Ok lut /\
              grid_unit lut /\ shape (Z.to_nat LUT_SIZE) lut.
Proof. unfold generate_lush. preset_runs. Qed.

Lemma generate_dream_runs :
  exists lut, generate_dream = Ok lut /\
              grid_unit lut /\ shape (Z.to_nat LUT_SIZE) lut.
Proof. unfold generate_dream. preset_runs. Qed.

Lemma generate_golden_runs :
  exists lut, generate_golden = Ok lut /\
              grid_unit lut /\ shape (Z.to_nat LUT_SIZE) lut.
Proof. unfold generate_golden. preset_runs. Qed.

Ltac clamped :=
  intros; apply grid_map_unit; intros; apply clip_cell_unit.

Lemma preset_unit (gen : result Grid) (n : nat) :
  (exists lut, gen = Ok lut /\ grid_unit lut /\ shape n lut) ->
  exists lut, gen = Ok lut /\ grid_unit lut.
Proof. intros [lut [H1 [H2 _]]]. now exists lut. Qed.

(** C1.  Applied to a grid whose cells lie in [[0,1]], every operator of the
    library returns a grid whose cells lie in [[0,1]], whatever the parameter
    (so in particular for parameters in the valid ranges); the tone curve
    does so for every non-empty list of control points with outputs in
    [[0,1]]; and every preset runs to a final grid with all cells in
    [[0,1]]. *)
Theorem clamping_invariant (lut : Grid) (Hlut : grid_unit lut) :
  (forall ev, grid_unit (adjust_exposure lut ev)) /\
  (forall amount, grid_unit (adjust_contrast lut amount)) /\
  (forall amount, grid_unit (adjust_saturation lut amount)) /\
  (forall amount, grid_unit (adjust_vibrance lut amount)) /\
  (forall amount, grid_unit (adjust_highlights lut amount)) /\
  (forall amount, grid_unit (adjust_shadows lut amount)) /\
  (forall amount, grid_unit (adjust_whites lut amount)) /\
  (forall amount, grid_unit (adjust_blacks lut amount)) /\
  (forall amount, grid_unit (adjust_temperature lut amount)) /\
  (forall amount, grid_unit (adjust_tint lut amount)) /\
  (forall amount, grid_unit (lift_blacks lut amount)) /\
  (forall range hue_shift sat_shift lum_shift,
      grid_unit (hsl_adjust lut range hue_shift sat_shift lum_shift)) /\
  (forall shadow_rgb highlight_rgb balance,
      grid_unit (split_tone lut shadow_rgb highlight_rgb balance)) /\
  (forall points c,
      points <> [] ->
      Forall (fun p => unit_interval (snd p)) points ->
      (exists a, apply_curve (channel c lut) points = Ok a /\
                 Forall (Forall (Forall unit_interval)) a) /\
      (exists lut', curve_channels lut points = Ok lut' /\ grid_unit lut')) /\
  (exists out, generate_vintage = Ok out /\ grid_unit out) /\
  (exists out, generate_mood = Ok out /\ grid_unit out) /\
  (exists out, generate_lush = Ok out /\ grid_unit out) /\
  (exists out, generate_dream = Ok out /\ grid_unit out) /\
  (exists out, generate_golden = Ok out /\ grid_unit out).
Proof.
  repeat match goal with |- _ /\ _ => split end.
  1-13: clamped.
  - intros points c Hne Hys. split.
    + now apply apply_curve_unit.
    + now apply curve_channels_unit.
  - exact (preset_unit _ _ generate_vintage_runs).
  - exact (preset_unit _ _ generate_mood_runs).
  - exact (preset_unit _ _ generate_lush_runs).
  - exact (preset_unit _ _ generate_dream_runs).
  - exact (preset_unit _ _ generate_golden_runs).
Qed.

Lemma clamping_invariant_witness :
  grid_unit [[[RGB 0.5 0.25 1]]] /\
  grid_unit (adjust_exposure [[[RGB 0.5 0.25 1]]] 0.5) /\
  grid_unit (adjust_contrast [[[RGB 0.5 0.25 1]]] 100).
Proof.
  assert (H : grid_unit [[[RGB 0.5 0.25 1]]]).
  { repeat constructor; simpl; lra. }
  split; [exact H|].
  destruct (clamping_invariant [[[RGB 0.5 0.25 1]]] H) as [He [Hc _]].
  split; [apply He | apply Hc].
Defined.

(** ** Luminance under saturation and vibrance *)

Lemma np_clip_low (x : R) : x <= 0 -> np_clip x 0 1 = 0.
Proof.
  intros Hx. unfold np_clip.
  rewrite Rmax_right by assumption. apply Rmin_left. lra.
Qed.

Lemma np_clip_high (x : R) : 1 <= x -> np_clip x 0 1 = 1.
Proof.
  intros Hx. unfold np_clip.
  rewrite Rmax_left by lra. now apply Rmin_right.
Qed.

Lemma cells_grid_map (f : rgb -> rgb) (lut : Grid) :
  cells (grid_map f lut) = map f (cells lut).
Proof.
  unfold cells, grid_map. now rewrite <- !concat_map.
Qed.

Lemma grid_unit_cells (lut : Grid) :
  grid_unit lut -> Forall cell_unit (cells lut).
Proof.
  intros H. unfold cells.
  apply Forall_concat, Forall_concat. exact H.
Qed.

Lemma luminances_grid_map (f : rgb -> rgb) (lut : Grid) :
  (forall p, cell_unit p -> luminance (f p) = luminance p) ->
  grid_unit lut ->
  luminances (grid_map f lut) = luminances lut.
Proof.
  intros Hf Hlut. unfold luminances.
  change (concat (concat (grid_map f lut))) with (cells (grid_map f lut)).
  change (concat (concat lut)) with (cells lut).
  rewrite cells_grid_map, map_map.
  apply grid_unit_cells in Hlut.
  induction Hlut as [|p l Hp _ IH]; simpl; [reflexivity|].
  now rewrite Hf, IH.
Qed.

Lemma luminance_unit (p : rgb) : cell_unit p -> unit_interval (luminance p).
Proof.
  destruct p as [r g b]. unfold cell_unit, unit_interval, luminance; simpl.
  intros [Hr [Hg Hb]]. lra.
Qed.

Lemma saturation_mix (p : rgb) (t : R) :
  luminance
    (per_channel (fun x => luminance p + (x - luminance p) * t) p)
  = luminance p.
Proof.
  destruct p as [r g b]. unfold luminance, per_channel; simpl. lra.
Qed.

Lemma saturation_unclipped (amount : R) (p : rgb) :
  cell_unit
    (per_channel
       (fun x => luminance p + (x - luminance p) * (1 + amount / 100)) p) ->
  luminance (adjust_saturation_cell amount p) = luminance p.
Proof.
  intros Hin. unfold adjust_saturation_cell. cbv zeta.
  rewrite clip_cell_id by exact Hin.
  apply saturation_mix.
Qed.

Lemma desaturation_in_unit (amount : R) (p : rgb) :
  -100 <= amount <= 0 -> cell_unit p ->
  cell_unit
    (per_channel
       (fun x => luminance p + (x - luminance p) * (1 + amount / 100)) p).
Proof.
  intros Ha Hp. pose proof (luminance_unit p Hp) as HL.
  destruct p as [r g b].
  unfold cell_unit, unit_interval, per_channel in *; simpl in *.
  set (L := luminance (RGB r g b)) in *.
  destruct Hp as [Hr [Hg Hb]].
  assert (Ht : 0 <= 1 + amount / 100 <= 1) by lra.
  set (t := 1 + amount / 100) in *.
  repeat split; nra.
Qed.

Lemma vibrance_zero_cell (p : rgb) :
  cell_unit p -> adjust_vibrance_cell 0 p = p.
Proof.
  intros Hp. unfold adjust_vibrance_cell. cbv zeta.
  transitivity (clip_cell p); [|now apply clip_cell_id].
  f_equal. destruct p as [r g b]. unfold per_channel; simpl.
  f_equal; lra.
Qed.

Lemma vibrance_neutral_cell (amount v : R) :
  unit_interval v ->
  adjust_vibrance_cell amount (RGB v v v) = RGB v v v.
Proof.
  intros Hv. unfold adjust_vibrance_cell. cbv zeta.
  assert (HL : luminance (RGB v v v) = v).
  { unfold luminance; simpl. lra. }
  unfold per_channel; simpl. rewrite HL.
  replace (v + (v - v) * (1 + amount / 100 * (1 - np_clip (Rabs (v - v) * 3) 0 1)))
    with v by ring.
  apply clip_cell_id. unfold cell_unit; simpl. auto.
Qed.

Lemma luminance_sample : luminance (RGB 0.5 0 0) = 0.1063.
Proof. unfold luminance; simpl. lra. Qed.

Lemma saturation_sample :
  adjust_saturation_cell 100 (RGB 0.5 0 0) = RGB 0.8937 0 0.
Proof.
  unfold adjust_saturation_cell. cbv zeta.
  rewrite luminance_sample. unfold per_channel, clip_cell; simpl.
  rewrite (np_clip_id (0.1063 + (0.5 - 0.1063) * (1 + 100 / 100)))
    by (unfold unit_interval; lra).
  rewrite (np_clip_low (0.1063 + (0 - 0.1063) * (1 + 100 / 100))) by lra.
  f_equal; lra.
Qed.

Lemma vibrance_sample :
  adjust_vibrance_cell (-100) (RGB 0.5 0 0)
  = RGB 0.5 (0.1063 * 0.6811) (0.1063 * 0.6811).
Proof.
  unfold adjust_vibrance_cell. cbv zeta.
  rewrite luminance_sample. unfold per_channel, clip_cell; simpl.
  replace (Rabs (0.5 - 0.1063)) with 0.3937
    by (rewrite Rabs_right; lra).
  replace (Rabs (0 - 0.1063)) with 0.1063
    by (rewrite Rabs_left; lra).
  rewrite (np_clip_high (0.3937 * 3)) by lra.
  rewrite (np_clip_id (0.1063 * 3)) by (unfold unit_interval; lra).
  f_equal; (rewrite np_clip_id by (unfold unit_interval; lra)); lra.
Qed.

(** C2, as stated, fails.  On the one-cell grid [(0.5, 0, 0)], saturation
    +100 raises the luminance from 0.1063 to about 0.19 because the final
    clamp cuts the negative green and blue channels; vibrance -100 raises it
    to about 0.163 without any clamping, because each channel gets its own
    boost factor. *)
Lemma luminance_not_preserved :
  grid_unit [[[RGB 0.5 0 0]]] /\
  luminances (adjust_saturation [[[RGB 0.5 0 0]]] 100)
    <> luminances [[[RGB 0.5 0 0]]] /\
  luminances (adjust_vibrance [[[RGB 0.5 0 0]]] (-100))
    <> luminances [[[RGB 0.5 0 0]]].
Proof.
  split; [repeat constructor; simpl; lra|].
  unfold luminances, adjust_saturation, adjust_vibrance; simpl.
  rewrite saturation_sample, vibrance_sample, luminance_sample.
  split; intros H; injection H as H; unfold luminance in H; simpl in H; lra.
Qed.

(** C2, amended.  On a grid with cells in [[0,1]], [adjust_saturation]
    leaves the luminance of every cell unchanged for every amount in
    [[-100, 0]], and for any amount in each cell none of whose channels is
    cut by the final clamp; [adjust_vibrance] leaves it unchanged for amount
    0, and in neutral cells (equal channels) for any amount. *)
Theorem luminance_neutrality (lut : Grid) (Hlut : grid_unit lut) :
  (forall amount, -100 <= amount <= 0 ->
     luminances (adjust_saturation lut amount) = luminances lut) /\
  (forall amount p,
     cell_unit
       (per_channel
          (fun x => luminance p + (x - luminance p) * (1 + amount / 100)) p) ->
     luminance (adjust_saturation_cell amount p) = luminance p) /\
  luminances (adjust_vibrance lut 0) = luminances lut /\
  (forall amount v, unit_interval v ->
     luminance (adjust_vibrance_cell amount (RGB v v v))
     = luminance (RGB v v v)).
Proof.
  repeat split.
  - intros amount Ha. unfold adjust_saturation.
    apply luminances_grid_map; [|exact Hlut].
    intros p Hp. apply saturation_unclipped.
    now apply desaturation_in_unit.
  - intros amount p. apply saturation_unclipped.
  - unfold adjust_vibrance.
    apply luminances_grid_map; [|exact Hlut].
    intros p Hp. now rewrite vibrance_zero_cell.
  - intros amount v Hv. now rewrite vibrance_neutral_cell.
Qed.

Lemma luminance_neutrality_witness :
  grid_unit [[[RGB 0.5 0.25 1]]] /\
  luminances (adjust_saturation [[[RGB 0.5 0.25 1]]] (-20))
  = luminances [[[RGB 0.5 0.25 1]]].
Proof.
  assert (H : grid_unit [[[RGB 0.5 0.25 1]]]).
  { repeat constructor; simpl; lra. }
  split; [exact H|].
  apply (proj1 (luminance_neutrality [[[RGB 0.5 0.25 1]]] H)). lra.
Defined.

(** ** Operators at a zero amount *)

Ltac zero_amount :=
  let p := fresh "p" in
  let Hp := fresh "Hp" in
  intros p Hp; cbv zeta;
  transitivity (clip_cell p); [|now apply clip_cell_id];
  f_equal; destruct p; unfold per_channel; simpl; f_equal; lra.

Lemma contrast_zero_cell (p : rgb) :
  cell_unit p -> adjust_contrast_cell 0 p = p.
Proof.
  revert p. unfold adjust_contrast_cell.
  destruct (Rlt_dec 0 (0 / 100)) as [Hpos|_]; [lra|].
  zero_amount.
Qed.

Lemma saturation_zero_cell (p : rgb) :
  cell_unit p -> adjust_saturation_cell 0 p = p.
Proof. revert p. unfold adjust_saturation_cell. zero_amount. Qed.

Lemma highlights_zero_cell (p : rgb) :
  cell_unit p -> adjust_highlights_cell 0 p = p.
Proof. revert p. unfold adjust_highlights_cell. zero_amount. Qed.

Lemma shadows_zero_cell (p : rgb) :
  cell_unit p -> adjust_shadows_cell 0 p = p.
Proof. revert p. unfold adjust_shadows_cell. zero_amount. Qed.

Lemma whites_zero_cell (p : rgb) :
  cell_unit p -> adjust_whites_cell 0 p = p.
Proof. revert p. unfold adjust_whites_cell. zero_amount. Qed.

Lemma blacks_zero_cell (p : rgb) :
  cell_unit p -> adjust_blacks_cell 0 p = p.
Proof. revert p. unfold adjust_blacks_cell. zero_amount. Qed.

Lemma temperature_zero_cell (p : rgb) :
  cell_unit p -> adjust_temperature_cell 0 p = p.
Proof. revert p. unfold adjust_temperature_cell. zero_amount. Qed.

Lemma tint_zero_cell (p : rgb) :
  cell_unit p -> adjust_tint_cell 0 p = p.
Proof. revert p. unfold adjust_tint_cell. zero_amount. Qed.

(** C5.  On a grid with cells in [[0,1]], contrast, saturation, vibrance,
    temperature, tint, highlights, shadows, whites and blacks, each invoked
    with amount 0, return the input grid. *)
Theorem zero_amount_identity (lut : Grid) (Hlut : grid_unit lut) :
  adjust_contrast lut 0 = lut /\
  adjust_saturation lut 0 = lut /\
  adjust_vibrance lut 0 = lut /\
  adjust_temperature lut 0 = lut /\
  adjust_tint lut 0 = lut /\
  adjust_highlights lut 0 = lut /\
  adjust_shadows lut 0 = lut /\
  adjust_whites lut 0 = lut /\
  adjust_blacks lut 0 = lut.
Proof.
  repeat split;
    apply (grid_map_id_on _ cell_unit); try exact Hlut.
  - apply contrast_zero_cell.
  - apply saturation_zero_cell.
  - apply vibrance_zero_cell.
  - apply temperature_zero_cell.
  - apply tint_zero_cell.
  - apply highlights_zero_cell.
  - apply shadows_zero_cell.
  - apply whites_zero_cell.
  - apply blacks_zero_cell.
Qed.

Lemma zero_amount_identity_witness :
  grid_unit [[[RGB 0.5 0.25 1]; [RGB 0 1 0.75]]] /\
  adjust_contrast [[[RGB 0.5 0.25 1]; [RGB 0 1 0.75]]] 0
  = [[[RGB 0.5 0.25 1]; [RGB 0 1 0.75]]].
Proof.
  assert (H : grid_unit [[[RGB 0.5 0.25 1]; [RGB 0 1 0.75]]]).
  { repeat constructor; simpl; lra. }
  split; [exact H|].
  exact (proj1 (zero_amount_identity _ H)).
Defined.

(** ** The hue-range operator with nothing to shift *)

Lemma hsl_zero_cell (range : R * R) (p : rgb) :
  cell_unit p -> hsl_adjust_cell range 0 0 0 p = p.
Proof.
  intros Hp. unfold hsl_adjust_cell. cbv zeta.
  destruct (Req_dec_T 0 0) as [_|Hne]; [|congruence].
  now apply clip_cell_id.
Qed.

(** C10.  On a grid with cells in [[0,1]] and for every hue range,
    [hsl_adjust] with hue, saturation and luminance shifts all 0 returns the
    input grid. *)
Theorem hsl_adjust_no_shift (lut : Grid) (range : R * R)
    (Hlut : grid_unit lut) :
  hsl_adjust lut range 0 0 0 = lut.
Proof.
  unfold hsl_adjust.
  apply (grid_map_id_on _ cell_unit); [|exact Hlut].
  apply hsl_zero_cell.
Qed.

Lemma hsl_adjust_no_shift_witness :
  grid_unit [[[RGB 1 0 0.25]]] /\
  hsl_adjust [[[RGB 1 0 0.25]]] (350, 10) 0 0 0 = [[[RGB 1 0 0.25]]].
Proof.
  assert (H : grid_unit [[[RGB 1 0 0.25]]]).
  { repeat constructor; simpl; lra. }
  split; [exact H|].
  exact (hsl_adjust_no_shift _ (350, 10) H).
Defined.

(** ** Split toning ignores its balance *)

(** C9.  The output of [split_tone] does not depend on the balance: for
    every grid, shadow colour and highlight colour, any two balance values
    give the same grid. *)
Theorem split_tone_balance_unused (lut : Grid) (shadow_rgb highlight_rgb : rgb)
    (balance1 balance2 : R) :
  split_tone lut shadow_rgb highlight_rgb balance1
  = split_tone lut shadow_rgb highlight_rgb balance2.
Proof. reflexivity. Qed.

(** ** The tone curve outside its control points *)

Lemma insert_point_In (q p : R * R) (l : list (R * R)) :
  In p (insert_point q l) <-> p = q \/ In p l.
Proof.
  induction l as [|a l IH]; simpl.
  - intuition congruence.
  - destruct (Rlt_dec (fst a) (fst q)); simpl; rewrite ?IH;
      intuition congruence.
Qed.

Lemma sorted_In (p : R * R) (points : list (R * R)) :
  In p (sorted points) <-> In p points.
Proof.
  induction points as [|q l IH]; simpl; [tauto|].
  rewrite insert_point_In, IH. intuition congruence.
Qed.

Lemma insert_point_ascending (q : R * R) (l : list (R * R)) :
  ascending l -> ascending (insert_point q l).
Proof.
  induction 1 as [|a l Ha Hl IH]; simpl.
  - constructor; constructor.
  - destruct (Rlt_dec (fst a) (fst q)) as [Hlt|Hge].
    + constructor; [|exact IH].
      apply Forall_forall. intros p Hin.
      apply insert_point_In in Hin. destruct Hin as [->|Hin]; [lra|].
      unfold above in Ha. rewrite Forall_forall in Ha. now apply Ha.
    + constructor; [|now constructor].
      constructor; [lra|].
      unfold above in Ha. eapply Forall_impl; [|exact Ha].
      simpl. intros p Hp. lra.
Qed.

Lemma sorted_ascending (points : list (R * R)) : ascending (sorted points).
Proof.
  induction points as [|q l IH]; simpl;
    [constructor | now apply insert_point_ascending].
Qed.

Lemma ascending_last (l : list (R * R)) (d p : R * R) :
  ascending l -> In p l -> fst p <= fst (last l d).
Proof.
  intros Hasc. revert p.
  induction Hasc as [|q l Hq Hl IH]; intros p Hin; [contradiction|].
  destruct l as [|a l'].
  - destruct Hin as [->|[]]. simpl. lra.
  - change (last (q :: a :: l') d) with (last (a :: l') d).
    destruct Hin as [->|Hin]; [|now apply IH].
    apply Rle_trans with (fst a).
    + unfold above in Hq. inversion Hq; assumption.
    + apply IH. now left.
Qed.

Lemma last_In {A : Type} (l : list A) (d : A) : l <> [] -> In (last l d) l.
Proof.
  induction l as [|a l IH]; [congruence|]. intros _.
  destruct l as [|b l']; [now left|].
  right. apply IH. discriminate.
Qed.

Lemma last_cons {A : Type} (l : list A) (a d : A) :
  last (a :: l) d = last l a.
Proof.
  revert a d. induction l as [|b l IH]; intros a d; [reflexivity|].
  change (last (a :: b :: l) d) with (last (b :: l) d).
  now rewrite (IH b d), (IH b a).
Qed.

Lemma interp_from_past_end (xp fp : list R) (x x0 y0 : R) :
  length xp = length fp ->
  Forall (fun x1 => x1 < x) xp ->
  interp_from x x0 y0 xp fp = last fp y0.
Proof.
  revert fp x0 y0.
  induction xp as [|x1 xp IH]; intros fp x0 y0 Hlen Hall;
    destruct fp as [|y1 fp]; try discriminate; simpl; [reflexivity|].
  inversion Hall as [|? ? Hx1 Hrest]; subst.
  destruct (Rlt_dec x x1) as [Hlt|_]; [lra|].
  rewrite IH by (simpl in Hlen; auto with arith).
  symmetry. apply last_cons.
Qed.

Lemma last_map_snd (p d : R * R) (rest : list (R * R)) :
  last (map snd rest) (snd p) = snd (last (p :: rest) d).
Proof.
  rewrite last_cons.
  revert p. induction rest as [|a rest IH]; intros p; [reflexivity|].
  simpl map. now rewrite !last_cons.
Qed.

(** C6.  For a non-empty list of control points, let [lo] and [hi] be the
    first and the last point after sorting by input: they are control points
    with the smallest and the largest input.  Below the input of [lo],
    [apply_curve] returns the output of [lo]; above the input of [hi] it
    returns the output of [hi]. *)
Theorem apply_curve_boundary (points : list (R * R)) (x : R)
    (Hne : points <> []) :
  let lo := hd (0, 0) (sorted points) in
  let hi := last (sorted points) (0, 0) in
  (In lo points /\ In hi points /\
   forall p, In p points -> fst lo <= fst p <= fst hi) /\
  (x < fst lo -> apply_curve [[[x]]] points = Ok [[[snd lo]]]) /\
  (fst hi < x -> apply_curve [[[x]]] points = Ok [[[snd hi]]]).
Proof.
  intros lo hi.
  pose proof (sorted_ascending points) as Hasc.
  assert (Hlast : forall p, In p points -> fst p <= fst hi).
  { intros p Hin. apply ascending_last; [exact Hasc|].
    now apply sorted_In. }
  rewrite apply_curve_ok by exact Hne.
  unfold curve_value. subst lo hi.
  destruct (sorted_cons points Hne) as [p0 [rest Hs]].
  rewrite Hs in *. simpl hd. simpl map.
  split; [split; [|split] | split].
  - apply sorted_In. rewrite Hs. now left.
  - apply sorted_In. rewrite Hs. apply last_In. discriminate.
  - intros p Hp. split; [|now apply Hlast].
    inversion Hasc as [|? ? Habove _]; subst.
    apply sorted_In in Hp. rewrite Hs in Hp.
    destruct Hp as [->|Hin]; [lra|].
    unfold above in Habove. rewrite Forall_forall in Habove.
    now apply Habove.
  - intros Hx. unfold interp_point.
    destruct (Rlt_dec x (fst p0)) as [_|Hge]; [reflexivity | lra].
  - intros Hx. unfold interp_point.
    assert (H0 : fst p0 <= fst (last (p0 :: rest) (0, 0))).
    { apply Hlast, sorted_In. rewrite Hs. now left. }
    destruct (Rlt_dec x (fst p0)) as [Hlt|_]; [lra|].
    rewrite interp_from_past_end.
    + now rewrite (last_map_snd p0 (0, 0) rest).
    + now rewrite !length_map.
    + apply Forall_map, Forall_forall. intros p Hin.
      apply Rle_lt_trans with (fst (last (p0 :: rest) (0, 0))); [|exact Hx].
      apply Hlast, sorted_In. rewrite Hs. now right.
Qed.

Lemma apply_curve_boundary_witness :
  [(0.5, 0.52); (0, 0.05)] <> [] /\
  apply_curve [[[-1]]] [(0.5, 0.52); (0, 0.05)] = Ok [[[0.05]]] /\
  apply_curve [[[2]]] [(0.5, 0.52); (0, 0.05)] = Ok [[[0.52]]].
Proof.
  assert (Hne : [(0.5, 0.52); (0, 0.05)] <> []) by discriminate.
  assert (Hs : sorted [(0.5, 0.52); (0, 0.05)] = [(0, 0.05); (0.5, 0.52)]).
  { simpl. destruct (Rlt_dec 0 0.5) as [_|Hge]; [reflexivity | lra]. }
  split; [exact Hne|].
  split.
  - pose proof (apply_curve_boundary _ (-1) Hne) as [_ [Hlo _]].
    rewrite Hs in Hlo. simpl in Hlo. apply Hlo. lra.
  - pose proof (apply_curve_boundary _ 2 Hne) as [_ [_ Hhi]].
    rewrite Hs in Hhi. simpl in Hhi. apply Hhi. lra.
Defined.

(** ** Hue ranges that wrap through 0/360 *)




Lemma Rltb_false (x y : R) : ~ x < y -> Rltb x y = false.
Proof. intros H. unfold Rltb. destruct (Rlt_dec x y); [contradiction | reflexivity]. Qed.

Lemma Rleb_true (x y : R) : x <= y -> Rleb x y = true.
Proof. intros H. unfold Rleb. destruct (Rle_dec x y); [reflexivity | contradiction]. Qed.

Lemma Rleb_false (x y : R) : ~ x <= y -> Rleb x y = false.
Proof. intros H. unfold Rleb. destruct (Rle_dec x y); [contradiction | reflexivity]. Qed.











(** ** The encoder *)

Lemma for_each_write {A : Type} (k : A -> list string) (l : list A)
    (body : nat -> file -> result file) (s : nat) (f : file) :
  (forall i a f', nth_error l i = Some a ->
                  body (s + i)%nat f' = Ok (f' ++ k a)) ->
  for_each (seq s (length l)) body f = Ok (f ++ flat_map k l).
Proof.
  revert s f. induction l as [|a l IH]; intros s f Hbody; simpl.
  - now rewrite app_nil_r.
  - pose proof (Hbody 0%nat a f eq_refl) as H0.
    rewrite Nat.add_0_r in H0. rewrite H0. simpl.
    rewrite IH.
    + now rewrite <- app_assoc.
    + intros i b f' Hi.
      replace (S s + i)%nat with (s + S i)%nat by lia. now apply Hbody.
Qed.

Lemma flat_map_singleton {A B : Type} (h : A -> B) (l : list A) :
  flat_map (fun a => [h a]) l = map h l.
Proof. induction l as [|a l IH]; simpl; [reflexivity | now rewrite IH]. Qed.

Lemma flat_map_map_concat {A B : Type} (h : A -> B) (ll : list (list A)) :
  flat_map (fun l => map h l) ll = map h (concat ll).
Proof.
  induction ll as [|l ll IH]; simpl; [reflexivity|].
  now rewrite IH, map_app.
Qed.

Lemma flat_map_planes {A B : Type} (h : A -> B) (lll : list (list (list A))) :
  flat_map (fun ll => map h (concat ll)) lll = map h (concat (concat lll)).
Proof.
  induction lll as [|ll lll IH]; simpl; [reflexivity|].
  now rewrite IH, concat_app, map_app.
Qed.

Lemma write_cube_content (n : nat) (lut : Grid) (title : string) :
  shape n lut ->
  write_cube lut title
  = Ok (cube_header title n ++ map data_line (cells lut)).
Proof.
  intros [Hlen Hplanes]. unfold write_cube, range, write.
  rewrite Nat2Z.id. cbv zeta. simpl app.
  rewrite (for_each_write (fun plane => map data_line (concat plane))).
  - rewrite Hlen. unfold cube_header, cells.
    rewrite flat_map_planes. reflexivity.
  - intros b plane f Hb. simpl.
    assert (Hplane : length plane = n /\
                     Forall (fun row => length row = n) plane).
    { rewrite Forall_forall in Hplanes. apply Hplanes.
      eapply nth_error_In; eassumption. }
    destruct Hplane as [Hpl Hrows].
    rewrite Hlen, <- Hpl.
    rewrite (for_each_write (fun row => map data_line row)).
    + now rewrite flat_map_map_concat.
    + intros g row f' Hg. simpl.
      assert (Hrow : length row = n).
      { rewrite Forall_forall in Hrows. apply Hrows.
        eapply nth_error_In; eassumption. }
      rewrite Hpl, <- Hrow.
      rewrite (for_each_write (fun p => [data_line p])).
      * now rewrite flat_map_singleton.
      * intros r p f'' Hr. simpl.
        unfold index3, grid_get. rewrite Hb, Hg, Hr. reflexivity.
Qed.

Lemma concat_uniform_length {A : Type} (n : nat) (ll : list (list A)) :
  Forall (fun l => length l = n) ll ->
  length (concat ll) = (length ll * n)%nat.
Proof.
  induction 1 as [|l ll Hl _ IH]; simpl; [reflexivity|].
  rewrite length_app, IH, Hl. reflexivity.
Qed.

Lemma nth_error_concat_uniform {A : Type} (n : nat) (ll : list (list A))
    (i j : nat) :
  Forall (fun l => length l = n) ll -> (j < n)%nat ->
  nth_error (concat ll) (i * n + j)
  = match nth_error ll i with
    | Some l => nth_error l j
    | None => None
    end.
Proof.
  intros Hall Hj. revert i.
  induction Hall as [|l ll Hl _ IH]; intros i; simpl.
  - destruct i; simpl; now rewrite nth_error_nil.
  - destruct i as [|i]; simpl.
    + apply nth_error_app1. lia.
    + rewrite nth_error_app2 by lia.
      replace (n + i * n + j - length l)%nat with (i * n + j)%nat by lia.
      apply IH.
Qed.

Lemma shape_rows (n : nat) (lut : Grid) :
  shape n lut -> Forall (fun row => length row = n) (concat lut).
Proof.
  intros [_ Hplanes]. apply Forall_concat.
  eapply Forall_impl; [|exact Hplanes]. simpl. intros plane [_ H]. exact H.
Qed.

Lemma shape_planes (n : nat) (lut : Grid) :
  shape n lut -> Forall (fun plane => length plane = n) lut.
Proof.
  intros [_ Hplanes].
  eapply Forall_impl; [|exact Hplanes]. simpl. intros plane [H _]. exact H.
Qed.

Lemma cells_length (n : nat) (lut : Grid) :
  shape n lut -> length (cells lut) = (n * n * n)%nat.
Proof.
  intros Hshape. unfold cells.
  rewrite (concat_uniform_length n) by now apply shape_rows.
  rewrite (concat_uniform_length n) by now apply shape_planes.
  destruct Hshape as [-> _]. reflexivity.
Qed.

Lemma cells_nth (n : nat) (lut : Grid) (b g r : nat) :
  shape n lut -> (g < n)%nat -> (r < n)%nat ->
  nth_error (cells lut) (b * n * n + g * n + r) = grid_get lut b g r.
Proof.
  intros Hshape Hg Hr. unfold cells, grid_get.
  replace (b * n * n + g * n + r)%nat with ((b * n + g) * n + r)%nat by lia.
  rewrite (nth_error_concat_uniform n) by (try apply shape_rows; assumption).
  rewrite (nth_error_concat_uniform n) by (try apply shape_planes; assumption).
  destruct (nth_error lut b) as [plane|]; reflexivity.
Qed.

Lemma grid_get_in_range (n : nat) (lut : Grid) (b g r : nat) :
  shape n lut -> (b < n)%nat -> (g < n)%nat -> (r < n)%nat ->
  exists p, grid_get lut b g r = Some p /\ In p (cells lut).
Proof.
  intros Hshape Hb Hg Hr.
  destruct (nth_error (cells lut) (b * n * n + g * n + r)) as [p|] eqn:Hp.
  - exists p. split.
    + now rewrite <- (cells_nth n).
    + eapply nth_error_In; eassumption.
  - apply nth_error_None in Hp.
    rewrite (cells_length n) in Hp by assumption. nia.
Qed.

(** *** Six decimals *)

Lemma round_half_even_range (y : R) :
  0 <= y <= 1000000 -> (0 <= round_half_even y <= 1000000)%Z.
Proof.
  intros [Hlo Hhi]. unfold round_half_even.
  destruct (base_Int_part y) as [Hf1 Hf2].
  set (f := Int_part y) in *.
  assert (Hf0 : (0 <= f)%Z).
  { assert (H : (-1 < f)%Z) by (apply lt_IZR; lra). lia. }
  assert (HfN : (f <= 1000000)%Z) by (apply le_IZR; lra).
  destruct (Rlt_dec (y - IZR f) 0.5) as [_|Hge]; [lia|].
  assert (Hlt : (f < 1000000)%Z) by (apply lt_IZR; lra).
  destruct (Rlt_dec 0.5 (y - IZR f)); [lia|].
  destruct (Z.even f); lia.
Qed.

Lemma digit_is_digit (d : Z) : (0 <= d < 10)%Z -> is_digit (digit d).
Proof.
  intros Hd. unfold is_digit, digit.
  rewrite nat_ascii_embedding; lia.
Qed.

Lemma frac6_digits (k : Z) :
  String.length (frac6 k) = 6%nat /\
  Forall is_digit (list_ascii_of_string (frac6 k)).
Proof.
  split; [reflexivity|].
  unfold frac6. simpl list_ascii_of_string.
  repeat (apply Forall_cons;
          [apply digit_is_digit; apply Z.mod_pos_bound; lia|]).
  apply Forall_nil.
Qed.

Lemma format_6f_unit (x : R) :
  unit_interval x -> six_decimals (format_6f x).
Proof.
  intros [H0 H1]. unfold six_decimals, format_6f.
  destruct (Rlt_dec x 0) as [Hneg|_]; [lra|].
  rewrite Rabs_right by lra.
  pose proof (round_half_even_range (x * 1000000) ltac:(lra)) as Hk.
  set (k := round_half_even (x * 1000000)) in *.
  exists (NilZero.string_of_uint (N.to_uint (Z.to_N (k / 1000000)))),
         (frac6 (k mod 1000000)).
  split; [reflexivity|]. split; [|apply frac6_digits].
  assert (Hq : (k / 1000000 = 0 \/ k / 1000000 = 1)%Z).
  { assert (0 <= k / 1000000 <= 1)%Z; [|lia].
    split; [apply Z.div_pos; lia|].
    apply Z.div_le_upper_bound; lia. }
  destruct Hq as [-> | ->]; [left | right]; reflexivity.
Qed.

Lemma round_half_even_near (y : R) :
  Rabs (y - IZR (round_half_even y)) <= 1 / 2.
Proof.
  unfold round_half_even.
  destruct (base_Int_part y) as [Hf1 Hf2].
  set (f := Int_part y) in *.
  destruct (Rlt_dec (y - IZR f) 0.5) as [Hlt|Hge].
  - unfold Rabs. destruct (Rcase_abs (y - IZR f)); lra.
  - destruct (Rlt_dec 0.5 (y - IZR f)) as [Hgt|Hle].
    + rewrite plus_IZR. unfold Rabs.
      destruct (Rcase_abs (y - (IZR f + 1))); lra.
    + destruct (Z.even f).
      * unfold Rabs. destruct (Rcase_abs (y - IZR f)); lra.
      * rewrite plus_IZR. unfold Rabs.
        destruct (Rcase_abs (y - (IZR f + 1))); lra.
Qed.

Lemma round_half_even_exact (z : Z) (y : R) :
  y = IZR z -> round_half_even y = z.
Proof.
  intros ->. unfold round_half_even.
  replace (Int_part (IZR z)) with z by (apply Int_part_spec; lra).
  destruct (Rlt_dec (IZR z - IZR z) 0.5) as [_|Hn]; [reflexivity | lra].
Qed.

Lemma six_digits (k : Z) :
  (0 <= k <= 1000000)%Z ->
  (k = k / 1000000 * 1000000
       + ((k mod 1000000) / 100000) mod 10 * 100000
       + ((k mod 1000000) / 10000) mod 10 * 10000
       + ((k mod 1000000) / 1000) mod 10 * 1000
       + ((k mod 1000000) / 100) mod 10 * 100
       + ((k mod 1000000) / 10) mod 10 * 10
       + (k mod 1000000) mod 10)%Z.
Proof.
  intros Hk.
  pose proof (Z.div_mod k 1000000 ltac:(lia)) as Hkm.
  pose proof (Z.mod_pos_bound k 1000000 ltac:(lia)) as Hm.
  set (m := (k mod 1000000)%Z) in *.
  assert (Hstep : forall a : Z, (a = 10 * (a / 10) + a mod 10)%Z).
  { intros a. apply Z.div_mod. lia. }
  pose proof (Hstep m) as H0.
  pose proof (Hstep (m / 10)%Z) as H1.
  pose proof (Hstep (m / 100)%Z) as H2.
  pose proof (Hstep (m / 1000)%Z) as H3.
  pose proof (Hstep (m / 10000)%Z) as H4.
  pose proof (Hstep (m / 100000)%Z) as H5.
  rewrite Z.div_div in H1, H2, H3, H4, H5 by lia.
  change (10 * 10)%Z with 100%Z in *.
  change (100 * 10)%Z with 1000%Z in *.
  change (1000 * 10)%Z with 10000%Z in *.
  change (10000 * 10)%Z with 100000%Z in *.
  change (100000 * 10)%Z with 1000000%Z in *.
  assert (H6 : (m / 1000000 = 0)%Z) by (apply Z.div_small; lia).
  rewrite H6 in H5.
  generalize dependent (m / 10)%Z. generalize dependent (m / 100)%Z.
  generalize dependent (m / 1000)%Z. generalize dependent (m / 10000)%Z.
  generalize dependent (m / 100000)%Z. generalize dependent (k / 1000000)%Z.
  intros. lia.
Qed.

Lemma format_6f_digits (x : R) :
  0 <= x <= 1 ->
  exists d6 d5 d4 d3 d2 d1 d0 : Z,
    Forall (fun d => (0 <= d <= 9)%Z) [d6; d5; d4; d3; d2; d1; d0] /\
    Rabs (x - (IZR d6 + IZR d5 / 10 + IZR d4 / 100 + IZR d3 / 1000
               + IZR d2 / 10000 + IZR d1 / 100000 + IZR d0 / 1000000))
    <= 1 / 2000000 /\
    format_6f x
    = String (ascii_of_nat (48 + Z.to_nat d6))
       (String "."%char
       (String (ascii_of_nat (48 + Z.to_nat d5))
       (String (ascii_of_nat (48 + Z.to_nat d4))
       (String (ascii_of_nat (48 + Z.to_nat d3))
       (String (ascii_of_nat (48 + Z.to_nat d2))
       (String (ascii_of_nat (48 + Z.to_nat d1))
       (String (ascii_of_nat (48 + Z.to_nat d0)) EmptyString))))))).
Proof.
  intros [H0 H1]. unfold format_6f.
  destruct (Rlt_dec x 0) as [Hneg|_]; [lra|].
  rewrite Rabs_right by lra.
  pose proof (round_half_even_range (x * 1000000) ltac:(lra)) as Hk.
  pose proof (round_half_even_near (x * 1000000)) as Hnear.
  set (k := round_half_even (x * 1000000)) in *.
  pose proof (six_digits k Hk) as Hsum.
  set (m := (k mod 1000000)%Z) in *.
  exists (k / 1000000)%Z, ((m / 100000) mod 10)%Z, ((m / 10000) mod 10)%Z,
         ((m / 1000) mod 10)%Z, ((m / 100) mod 10)%Z, ((m / 10) mod 10)%Z,
         (m mod 10)%Z.
  assert (Hq01 : (0 <= k / 1000000 <= 1)%Z).
  { split; [apply Z.div_pos; lia | apply Z.div_le_upper_bound; lia]. }
  assert (Hq : (k / 1000000 = 0 \/ k / 1000000 = 1)%Z).
  { generalize dependent (k / 1000000)%Z. intros. lia. }
  split; [|split].
  - apply Forall_cons; [destruct Hq as [-> | ->]; lia|].
    repeat (apply Forall_cons;
            [match goal with
             | |- (0 <= ?a mod 10 <= 9)%Z =>
                 let Hb := fresh "Hb" in
                 pose proof (Z.mod_pos_bound a 10 ltac:(lia)) as Hb;
                 generalize dependent (a mod 10)%Z; intros; lia
             end|]).
    apply Forall_nil.
  - apply (f_equal IZR) in Hsum.
    rewrite !plus_IZR, !mult_IZR in Hsum.
    unfold Rabs in *.
    destruct (Rcase_abs (x * 1000000 - IZR k));
      match goal with
      | |- context [Rcase_abs ?t] => destruct (Rcase_abs t)
      end; lra.
  - destruct Hq as [-> | ->]; reflexivity.
Qed.

Lemma format_6f_samples :
  format_6f 0 = "0.000000"%string /\
  format_6f 0.5 = "0.500000"%string /\
  format_6f 1 = "1.000000"%string.
Proof.
  unfold format_6f.
  destruct (Rlt_dec 0 0) as [H|_]; [lra|].
  destruct (Rlt_dec 0.5 0) as [H|_]; [lra|].
  destruct (Rlt_dec 1 0) as [H|_]; [lra|].
  rewrite (round_half_even_exact 0)
    by (rewrite Rabs_right by lra; lra).
  rewrite (round_half_even_exact 500000)
    by (rewrite Rabs_right by lra; lra).
  rewrite (round_half_even_exact 1000000)
    by (rewrite Rabs_right by lra; lra).
  repeat split; reflexivity.
Qed.

(** C4.  For a grid of shape [(N, N, N, 3)] with cells in [[0,1]] and any
    title, the encoder writes the four header lines [TITLE "<title>"],
    [LUT_3D_SIZE <N>], [DOMAIN_MIN 0.0 0.0 0.0], [DOMAIN_MAX 1.0 1.0 1.0]
    and a blank line, each ended by a newline, followed by exactly [N^3]
    data lines; the line at position [b*N*N + g*N + r] (red index fastest,
    blue slowest) holds the three channels of cell [(b, g, r)], separated by
    spaces, printed by the six-decimal format and ended by a newline.  The
    six-decimal format of a value in [[0,1]] is one digit, a dot and six
    digits, and the number these digits denote is within half a millionth
    of the value; 0, 0.5 and 1 print as [0.000000], [0.500000] and
    [1.000000].  In particular the Vintage preset runs, and its file has
    the header [TITLE "Vintage"], [LUT_3D_SIZE 33] and 35937 data lines,
    one per cell, each cell in [[0,1]]. *)
Theorem write_cube_format :
  let newline := String "010"%char EmptyString in
  let quote := String "034"%char EmptyString in
  let chr := fun d : Z => ascii_of_nat (48 + Z.to_nat d) in
  (forall (N : nat) (lut : Grid) (title : string),
     shape N lut -> grid_unit lut ->
     exists data : list string,
       write_cube lut title
       = Ok ([("TITLE " ++ quote ++ title ++ quote ++ newline)%string;
              ("LUT_3D_SIZE " ++ NilZero.string_of_uint (Nat.to_uint N)
               ++ newline)%string;
              ("DOMAIN_MIN 0.0 0.0 0.0" ++ newline)%string;
              ("DOMAIN_MAX 1.0 1.0 1.0" ++ newline)%string;
              newline] ++ data) /\
       length data = (N * N * N)%nat /\
       forall b g r : nat,
         (b < N)%nat -> (g < N)%nat -> (r < N)%nat ->
         exists p,
           grid_get lut b g r = Some p /\
           nth_error data (b * N * N + g * N + r)
           = Some (format_6f (chR p) ++ " " ++ format_6f (chG p) ++ " "
                   ++ format_6f (chB p) ++ newline)%string /\
           six_decimals (format_6f (chR p)) /\
           six_decimals (format_6f (chG p)) /\
           six_decimals (format_6f (chB p))) /\
  (forall x : R, 0 <= x <= 1 ->
     exists d6 d5 d4 d3 d2 d1 d0 : Z,
       Forall (fun d => (0 <= d <= 9)%Z) [d6; d5; d4; d3; d2; d1; d0] /\
       Rabs (x - (IZR d6 + IZR d5 / 10 + IZR d4 / 100 + IZR d3 / 1000
                  + IZR d2 / 10000 + IZR d1 / 100000 + IZR d0 / 1000000))
       <= 1 / 2000000 /\
       format_6f x
       = String (chr d6)
          (String "."%char
          (String (chr d5) (String (chr d4) (String (chr d3)
          (String (chr d2) (String (chr d1) (String (chr d0)
             EmptyString)))))))) /\
  (format_6f 0 = "0.000000"%string /\
   format_6f 0.5 = "0.500000"%string /\
   format_6f 1 = "1.000000"%string) /\
  (exists (out : Grid) (data : list string),
     generate_vintage = Ok out /\
     write_cube out "Vintage"
     = Ok ([("TITLE " ++ quote ++ "Vintage" ++ quote ++ newline)%string;
            ("LUT_3D_SIZE 33" ++ newline)%string;
            ("DOMAIN_MIN 0.0 0.0 0.0" ++ newline)%string;
            ("DOMAIN_MAX 1.0 1.0 1.0" ++ newline)%string;
            newline] ++ data) /\
     Z.of_nat (length data) = 35937%Z /\
     Forall
       (fun line : string =>
          exists p : rgb,
            cell_unit p /\
            line = (format_6f (chR p) ++ " " ++ format_6f (chG p) ++ " "
                    ++ format_6f (chB p) ++ newline)%string)
       data).
Proof.
  intros newline quote chr.
  split; [|split; [|split]].
  - intros N lut title Hshape Hunit.
    exists (map data_line (cells lut)). split; [|split].
    + now apply write_cube_content.
    + rewrite length_map. now apply cells_length.
    + intros b g r Hb Hg Hr.
      destruct (grid_get_in_range N lut b g r Hshape Hb Hg Hr) as [p [Hp Hin]].
      exists p. split; [exact Hp|].
      assert (Hcell : cell_unit p).
      { apply grid_unit_cells in Hunit.
        rewrite Forall_forall in Hunit. now apply Hunit. }
      destruct Hcell as [HR [HG HB]].
      split; [|split; [|split]; now apply format_6f_unit].
      rewrite nth_error_map, (cells_nth N) by assumption.
      rewrite Hp. reflexivity.
  - intros x Hx. apply format_6f_digits. exact Hx.
  - exact format_6f_samples.
  - destruct generate_vintage_runs as [out [Hgen [Hunit Hshape]]].
    exists out, (map data_line (cells out)). split; [exact Hgen|].
    split; [|split].
    + now rewrite (write_cube_content _ _ _ Hshape).
    + rewrite length_map, (cells_length _ _ Hshape). reflexivity.
    + apply Forall_map. apply grid_unit_cells in Hunit.
      eapply Forall_impl; [|exact Hunit].
      intros p Hp. exists p. split; [exact Hp | reflexivity].
Qed.

Lemma write_cube_format_witness :
  shape 1 [[[RGB 0 0.5 1]]] /\ grid_unit [[[RGB 0 0.5 1]]] /\
  write_cube [[[RGB 0 0.5 1]]] "LUT"
  = Ok [("TITLE " ++ String "034"%char
           ("LUT" ++ String "034"%char (String "010"%char EmptyString)))%string;
        ("LUT_3D_SIZE 1" ++ String "010"%char EmptyString)%string;
        ("DOMAIN_MIN 0.0 0.0 0.0" ++ String "010"%char EmptyString)%string;
        ("DOMAIN_MAX 1.0 1.0 1.0" ++ String "010"%char EmptyString)%string;
        String "010"%char EmptyString;
        ("0.000000 0.500000 1.000000" ++ String "010"%char EmptyString)%string].
Proof.
  assert (Hshape : shape 1 [[[RGB 0 0.5 1]]]).
  { split; [reflexivity|]. repeat constructor. }
  assert (Hunit : grid_unit [[[RGB 0 0.5 1]]]).
  { repeat constructor; simpl; lra. }
  split; [exact Hshape|]. split; [exact Hunit|].
  destruct write_cube_format as [Hlines [_ [[F0 [F5 F1]] _]]].
  destruct (Hlines 1%nat _ "LUT"%string Hshape Hunit)
    as [data [Hw [Hlen Hnth]]].
  destruct (Hnth 0%nat 0%nat 0%nat Nat.lt_0_1 Nat.lt_0_1 Nat.lt_0_1)
    as [p [Hp [Hline _]]].
  injection Hp as <-. cbn [chR chG chB] in Hline.
  rewrite F0, F5, F1 in Hline.
  destruct data as [|line [|line' data]]; try discriminate Hlen.
  injection Hline as ->.
  exact Hw.
Defined.

(** * Further properties of the generator *)

(** ** The identity grid is a well-formed grid *)

Lemma ratio_unit (a d : Z) :
  (0 <= a <= d)%Z -> (0 < d)%Z -> unit_interval (IZR a / IZR d).
Proof.
  intros [Ha Had] Hd. unfold unit_interval.
  assert (HdR : 0 < IZR d) by (apply IZR_lt; exact Hd).
  assert (HaR : 0 <= IZR a) by (apply IZR_le; exact Ha).
  assert (HadR : IZR a <= IZR d) by (apply IZR_le; exact Had).
  split.
  - apply Rmult_le_pos; [exact HaR|]. left. now apply Rinv_0_lt_compat.
  - apply (Rmult_le_reg_r (IZR d)); [exact HdR|].
    unfold Rdiv. rewrite Rmult_assoc, Rinv_l by lra. lra.
Qed.

Lemma identity_table_unit (size : Z) :
  (2 <= size)%Z -> grid_unit (identity_table size).
Proof.
  intros Hsize. unfold grid_unit, identity_table, range.
  apply Forall_map, Forall_forall. intros b Hb.
  apply Forall_map, Forall_forall. intros g Hg.
  apply Forall_map, Forall_forall. intros r Hr.
  apply in_seq in Hb. apply in_seq in Hg. apply in_seq in Hr.
  unfold cell_unit; simpl.
  repeat split; apply ratio_unit; lia.
Qed.

(** X1.  For every size [N >= 2], [identity_lut N] returns a grid of shape
    [(N, N, N, 3)] with all cells in [[0,1]], whose first cell is black and
    whose last cell is white. *)
Theorem identity_lut_well_formed (N : Z) (HN : (2 <= N)%Z) :
  exists lut,
    identity_lut N = Ok lut /\
    shape (Z.to_nat N) lut /\
    grid_unit lut /\
    grid_get lut 0 0 0 = Some (RGB 0 0 0) /\
    grid_get lut (Z.to_nat N - 1) (Z.to_nat N - 1) (Z.to_nat N - 1)
    = Some (RGB 1 1 1).
Proof.
  exists (identity_table N).
  split; [now apply identity_lut_table|].
  split; [apply identity_table_shape|].
  split; [now apply identity_table_unit|].
  assert (Hd : IZR (N - 1) <> 0).
  { apply not_0_IZR. lia. }
  split.
  - rewrite identity_table_get by (simpl; lia).
    simpl. f_equal. f_equal; unfold Rdiv; apply Rmult_0_l.
  - rewrite identity_table_get by lia.
    replace (Z.of_nat (Z.to_nat N - 1)) with (N - 1)%Z by lia.
    f_equal. f_equal; now apply Rinv_r.
Qed.

Lemma identity_lut_well_formed_witness :
  exists lut,
    identity_lut 33 = Ok lut /\ shape 33 lut /\ grid_unit lut.
Proof.
  destruct (identity_lut_well_formed 33 ltac:(lia)) as [lut [H1 [H2 [H3 _]]]].
  exists lut. split; [exact H1|]. split; [exact H2 | exact H3].
Defined.

(** ** Every operator keeps the shape of the grid *)

(** X2.  Each operator of the library returns a grid of the shape of its
    input, and so does the per-channel tone curve for a non-empty list of
    control points; with an empty list the curve raises [ValueError]
    whatever the grid. *)
Theorem operators_keep_shape (n : nat) (lut : Grid) (Hshape : shape n lut) :
  (forall ev, shape n (adjust_exposure lut ev)) /\
  (forall amount, shape n (adjust_contrast lut amount)) /\
  (forall amount, shape n (adjust_saturation lut amount)) /\
  (forall amount, shape n (adjust_vibrance lut amount)) /\
  (forall amount, shape n (adjust_highlights lut amount)) /\
  (forall amount, shape n (adjust_shadows lut amount)) /\
  (forall amount, shape n (adjust_whites lut amount)) /\
  (forall amount, shape n (adjust_blacks lut amount)) /\
  (forall amount, shape n (adjust_temperature lut amount)) /\
  (forall amount, shape n (adjust_tint lut amount)) /\
  (forall amount, shape n (lift_blacks lut amount)) /\
  (forall range hue_shift sat_shift lum_shift,
      shape n (hsl_adjust lut range hue_shift sat_shift lum_shift)) /\
  (forall shadow_rgb highlight_rgb balance,
      shape n (split_tone lut shadow_rgb highlight_rgb balance)) /\
  (forall points, points <> [] ->
      exists lut', curve_channels lut points = Ok lut' /\ shape n lut') /\
  curve_channels lut [] = Raise ValueError.
Proof.
  repeat match goal with |- _ /\ _ => split end;
    try (intros; apply grid_map_shape; exact Hshape).
  - intros points Hne.
    exists (grid_map (per_channel (curve_value points)) lut). split.
    + now apply curve_channels_ok.
    + now apply grid_map_shape.
  - reflexivity.
Qed.

Lemma operators_keep_shape_witness :
  shape 1 [[[RGB 0.5 0.25 1]]] /\
  shape 1 (adjust_exposure [[[RGB 0.5 0.25 1]]] 0.5).
Proof.
  assert (H : shape 1 [[[RGB 0.5 0.25 1]]]).
  { split; [reflexivity|]. repeat constructor. }
  split; [exact H|].
  apply (proj1 (operators_keep_shape 1 _ H)).
Defined.

(** ** Exposure *)

Lemma per_channel_clip_id (f : R -> R) (p : rgb) :
  unit_interval (f (chR p)) -> unit_interval (f (chG p)) ->
  unit_interval (f (chB p)) ->
  clip_cell (per_channel f p) = per_channel f p.
Proof.
  intros Hr Hg Hb. apply clip_cell_id.
  unfold cell_unit, per_channel; simpl. auto.
Qed.

Lemma grid_map_ext_on (f g : rgb -> rgb) (P : rgb -> Prop) (lut : Grid) :
  (forall p, P p -> f p = g p) ->
  Forall (Forall (Forall P)) lut -> grid_map f lut = grid_map g lut.
Proof.
  intros Hfg Hlut. unfold grid_map.
  induction Hlut as [|plane lut Hplane _ IH]; simpl; [reflexivity|].
  f_equal; [|exact IH].
  induction Hplane as [|row plane Hrow _ IHp]; simpl; [reflexivity|].
  f_equal; [|exact IHp].
  induction Hrow as [|p row Hp _ IHr]; simpl; [reflexivity|].
  f_equal; [now apply Hfg | exact IHr].
Qed.

Lemma Rpower2_ge_1 (ev : R) : 0 <= ev -> 1 <= Rpower 2 ev.
Proof.
  intros Hev. rewrite <- (Rpower_O 2) by lra.
  apply Rle_Rpower; lra.
Qed.

Lemma Rpower2_le_1 (ev : R) : ev <= 0 -> 0 < Rpower 2 ev <= 1.
Proof.
  intros Hev. split; [apply exp_pos|].
  apply Rle_trans with (Rpower 2 0); [apply Rle_Rpower; lra|].
  rewrite Rpower_O; lra.
Qed.

Lemma clip_scale_twice (x A B : R) :
  unit_interval x ->
  (1 <= A /\ 1 <= B) \/ (0 < A <= 1 /\ 0 < B <= 1) ->
  np_clip (np_clip (x * A) 0 1 * B) 0 1 = np_clip (x * (A * B)) 0 1.
Proof.
  intros [H0 H1] [[HA HB] | [HA HB]].
  - destruct (Rle_dec (x * A) 1) as [Hle|Hgt].
    + rewrite (np_clip_id (x * A)) by (unfold unit_interval; nra).
      f_equal. ring.
    + rewrite (np_clip_high (x * A)) by lra.
      rewrite (np_clip_high (1 * B)) by lra.
      symmetry. apply np_clip_high. nra.
  - rewrite (np_clip_id (x * A)) by (unfold unit_interval; nra).
    f_equal. ring.
Qed.

Lemma adjust_exposure_laws (lut : Grid) (Hlut : grid_unit lut) :
  adjust_exposure lut 0 = lut /\
  (forall ev, ev <= 0 ->
     adjust_exposure lut ev
     = grid_map (per_channel (fun x => x * Rpower 2 ev)) lut) /\
  (forall a b, (0 <= a /\ 0 <= b) \/ (a <= 0 /\ b <= 0) ->
     adjust_exposure (adjust_exposure lut a) b = adjust_exposure lut (a + b)).
Proof.
  split; [|split].
  - unfold adjust_exposure.
    apply (grid_map_id_on _ cell_unit); [|exact Hlut].
    intros p Hp. unfold adjust_exposure_cell. cbv zeta.
    rewrite Rpower_O by lra.
    transitivity (clip_cell p); [|now apply clip_cell_id].
    f_equal. destruct p; unfold per_channel; simpl. f_equal; lra.
  - intros ev Hev. unfold adjust_exposure.
    apply (grid_map_ext_on _ _ cell_unit); [|exact Hlut].
    intros p [Hr [Hg Hb]]. unfold adjust_exposure_cell. cbv zeta.
    destruct (Rpower2_le_1 ev Hev) as [Hpos Hle].
    unfold unit_interval in *.
    apply per_channel_clip_id; unfold unit_interval; nra.
  - intros a b Hab. unfold adjust_exposure. rewrite grid_map_map.
    apply (grid_map_ext_on _ _ cell_unit); [|exact Hlut].
    intros p [Hr [Hg Hb]]. unfold adjust_exposure_cell. cbv zeta.
    rewrite Rpower_plus.
    assert (HAB : (1 <= Rpower 2 a /\ 1 <= Rpower 2 b) \/
                  (0 < Rpower 2 a <= 1 /\ 0 < Rpower 2 b <= 1)).
    { destruct Hab as [[Ha Hb'] | [Ha Hb']].
      - left. split; now apply Rpower2_ge_1.
      - right. split; now apply Rpower2_le_1. }
    unfold clip_cell, per_channel; simpl.
    now rewrite !clip_scale_twice.
Qed.

Lemma adjust_exposure_checked_ok (lut : Grid) (ev : R) :
  ev < 1024 -> adjust_exposure_checked lut ev = Ok (adjust_exposure lut ev).
Proof.
  intros Hev. unfold adjust_exposure_checked, float_pow2.
  destruct (Rle_dec 1024 ev) as [Hge|_]; [lra | reflexivity].
Qed.

Lemma adjust_exposure_checked_raise (lut : Grid) (ev : R) :
  1024 <= ev -> adjust_exposure_checked lut ev = Raise OverflowError.
Proof.
  intros Hev. unfold adjust_exposure_checked, float_pow2.
  destruct (Rle_dec 1024 ev) as [_|Hlt]; [reflexivity | contradiction].
Qed.

(** X3.  [adjust_exposure] returns for every [ev < 1024] and raises
    [OverflowError] from [ev = 1024] on.  On a grid with cells in [[0,1]]:
    exposure 0 returns the grid; a non-positive exposure scales every
    channel by [2^ev] with no clamping; two exposures of the same sign whose
    sum is below 1024 compose into the exposure of their sum; when the sum
    reaches 1024 the two calls in sequence still return while the single
    call raises. *)
Theorem exposure_composes (lut : Grid) (Hlut : grid_unit lut) :
  (forall ev, ev < 1024 ->
     adjust_exposure_checked lut ev = Ok (adjust_exposure lut ev)) /\
  (forall ev, 1024 <= ev ->
     adjust_exposure_checked lut ev = Raise OverflowError) /\
  adjust_exposure_checked lut 0 = Ok lut /\
  (forall ev, ev <= 0 ->
     adjust_exposure_checked lut ev
     = Ok (grid_map (per_channel (fun x => x * Rpower 2 ev)) lut)) /\
  (forall a b, (0 <= a /\ 0 <= b) \/ (a <= 0 /\ b <= 0) -> a + b < 1024 ->
     (g <- adjust_exposure_checked lut a ;; adjust_exposure_checked g b)
     = adjust_exposure_checked lut (a + b)) /\
  (forall a b, a < 1024 -> b < 1024 -> 1024 <= a + b ->
     (exists g,
        (g' <- adjust_exposure_checked lut a ;; adjust_exposure_checked g' b)
        = Ok g) /\
     adjust_exposure_checked lut (a + b) = Raise OverflowError).
Proof.
  destruct (adjust_exposure_laws lut Hlut) as [Hzero [Hdown Hcomp]].
  split; [intros ev; apply adjust_exposure_checked_ok|].
  split; [intros ev; apply adjust_exposure_checked_raise|].
  split; [|split; [|split]].
  - rewrite adjust_exposure_checked_ok by lra. now rewrite Hzero.
  - intros ev Hev. rewrite adjust_exposure_checked_ok by lra.
    now rewrite Hdown.
  - intros a b Hsign Hsum.
    rewrite (adjust_exposure_checked_ok lut a) by lra. cbn [bind].
    rewrite (adjust_exposure_checked_ok _ b) by lra.
    rewrite (adjust_exposure_checked_ok lut (a + b)) by lra.
    now rewrite Hcomp.
  - intros a b Ha Hb Hsum. split.
    + exists (adjust_exposure (adjust_exposure lut a) b).
      rewrite (adjust_exposure_checked_ok lut a) by exact Ha. cbn [bind].
      now apply adjust_exposure_checked_ok.
    + now apply adjust_exposure_checked_raise.
Qed.

Lemma exposure_composes_witness :
  grid_unit [[[RGB 0.5 0.25 1]]] /\
  (g <- adjust_exposure_checked [[[RGB 0.5 0.25 1]]] 0.5 ;;
   adjust_exposure_checked g 0.25)
  = adjust_exposure_checked [[[RGB 0.5 0.25 1]]] (0.5 + 0.25) /\
  adjust_exposure_checked [[[RGB 0.5 0.25 1]]] (600 + 600)
  = Raise OverflowError.
Proof.
  assert (H : grid_unit [[[RGB 0.5 0.25 1]]]).
  { repeat constructor; simpl; lra. }
  split; [exact H|].
  destruct (exposure_composes _ H) as [_ [_ [_ [_ [Hcomp Hover]]]]].
  split.
  - apply Hcomp; [left|]; lra.
  - apply (Hover 600 600); lra.
Defined.

(** ** Black lift *)

(** X4.  On a grid with cells in [[0,1]] and for an amount in [[0,1]],
    [lift_blacks] maps every channel [x] to [amount + x * (1 - amount)]
    with no clamping, so no channel ends below [amount] or below its input
    and white stays white; two lifts [a] then [b] compose into the lift
    [a + b - a * b]. *)
Theorem lift_blacks_floor (lut : Grid) (amount : R)
    (Hlut : grid_unit lut) (Hamount : 0 <= amount <= 1) :
  lift_blacks lut amount
  = grid_map (per_channel (fun x => amount + x * (1 - amount))) lut /\
  Forall (fun p =>
            amount <= chR p <= 1 /\ amount <= chG p <= 1 /\
            amount <= chB p <= 1)
         (cells (lift_blacks lut amount)) /\
  Forall2 (fun p q => chR p <= chR q /\ chG p <= chG q /\ chB p <= chB q)
          (cells lut) (cells (lift_blacks lut amount)) /\
  lift_blacks_cell amount (RGB 1 1 1) = RGB 1 1 1 /\
  (forall b, 0 <= b <= 1 ->
     lift_blacks (lift_blacks lut amount) b
     = lift_blacks lut (amount + b - amount * b)).
Proof.
  assert (Hcell : forall a p, 0 <= a <= 1 -> cell_unit p ->
            lift_blacks_cell a p
            = per_channel (fun x => a + x * (1 - a)) p).
  { intros a p Ha [Hr [Hg Hb]]. unfold lift_blacks_cell, unit_interval in *.
    apply per_channel_clip_id; unfold unit_interval; nra. }
  assert (Heq : lift_blacks lut amount
                = grid_map (per_channel (fun x => amount + x * (1 - amount)))
                    lut).
  { unfold lift_blacks.
    apply (grid_map_ext_on _ _ cell_unit); [|exact Hlut].
    intros p Hp. now apply Hcell. }
  pose proof (grid_unit_cells lut Hlut) as Hcells.
  split; [exact Heq|].
  split; [|split; [|split]].
  - rewrite Heq, cells_grid_map. apply Forall_map.
    eapply Forall_impl; [|exact Hcells].
    intros p [Hr [Hg Hb]]. unfold per_channel, unit_interval in *; simpl.
    repeat split; nra.
  - rewrite Heq, cells_grid_map.
    induction Hcells as [|p l [Hr [Hg Hb]] _ IH]; simpl; constructor;
      [|exact IH].
    unfold per_channel, unit_interval in *; simpl. repeat split; nra.
  - rewrite Hcell by (unfold cell_unit, unit_interval; simpl; lra).
    unfold per_channel; simpl. f_equal; lra.
  - intros b Hb. unfold lift_blacks. rewrite grid_map_map.
    apply (grid_map_ext_on _ _ cell_unit); [|exact Hlut].
    intros p Hp.
    rewrite (Hcell amount p Hamount Hp).
    assert (Hmid : cell_unit
                     (per_channel (fun x => amount + x * (1 - amount)) p)).
    { destruct Hp as [Hr [Hg Hb']].
      unfold cell_unit, per_channel, unit_interval in *; simpl.
      repeat split; nra. }
    rewrite (Hcell b _ Hb Hmid).
    rewrite Hcell by (try exact Hp; nra).
    destruct p as [r g c]. unfold per_channel; simpl. f_equal; ring.
Qed.

Lemma lift_blacks_floor_witness :
  grid_unit [[[RGB 0 0.25 1]]] /\ 0 <= 0.06 <= 1 /\
  lift_blacks (lift_blacks [[[RGB 0 0.25 1]]] 0.06) 0.08
  = lift_blacks [[[RGB 0 0.25 1]]] (0.06 + 0.08 - 0.06 * 0.08).
Proof.
  assert (H : grid_unit [[[RGB 0 0.25 1]]]).
  { repeat constructor; simpl; lra. }
  assert (Ha : 0 <= 0.06 <= 1) by lra.
  split; [exact H|]. split; [exact Ha|].
  destruct (lift_blacks_floor _ 0.06 H Ha) as [_ [_ [_ [_ Hcomp]]]].
  apply Hcomp. lra.
Defined.

(** ** Contrast *)

Lemma np_clip_mono (x y : R) : x <= y -> np_clip x 0 1 <= np_clip y 0 1.
Proof.
  intros Hxy. unfold np_clip.
  apply Rle_min_compat_r. now apply Rle_max_compat_r.
Qed.

(** X5.  For an amount in [[-100, 100]], [adjust_contrast] keeps mid-gray
    fixed and is monotone in every channel; for an amount in [[-100, 0]] it
    never clamps a cell of [[0,1]]: every channel is moved towards 0.5 by
    the factor [1 + amount/200]. *)
Theorem contrast_pivot (amount : R) (Hamount : -100 <= amount <= 100) :
  adjust_contrast_cell amount (RGB 0.5 0.5 0.5) = RGB 0.5 0.5 0.5 /\
  (forall p q,
     (chR p <= chR q ->
      chR (adjust_contrast_cell amount p) <= chR (adjust_contrast_cell amount q))
     /\
     (chG p <= chG q ->
      chG (adjust_contrast_cell amount p) <= chG (adjust_contrast_cell amount q))
     /\
     (chB p <= chB q ->
      chB (adjust_contrast_cell amount p) <= chB (adjust_contrast_cell amount q)))
  /\
  (amount <= 0 ->
   forall p, cell_unit p ->
     adjust_contrast_cell amount p
     = per_channel (fun x => 0.5 + (x - 0.5) * (1 + amount / 200)) p).
Proof.
  split; [|split].
  - unfold adjust_contrast_cell. cbv zeta.
    destruct (Rlt_dec 0 (amount / 100)); unfold per_channel, clip_cell; simpl;
      f_equal; (rewrite np_clip_id by (unfold unit_interval; lra)); lra.
  - intros p q. unfold adjust_contrast_cell. cbv zeta.
    destruct (Rlt_dec 0 (amount / 100)) as [Hpos|Hneg];
      unfold per_channel, clip_cell; simpl;
      repeat split; intros Hle; apply np_clip_mono; nra.
  - intros Hneg p [Hr [Hg Hb]]. unfold adjust_contrast_cell. cbv zeta.
    destruct (Rlt_dec 0 (amount / 100)) as [Hpos|_]; [lra|].
    unfold unit_interval in *.
    rewrite per_channel_clip_id by (unfold unit_interval; nra).
    destruct p as [r g b]. unfold per_channel; simpl. f_equal; lra.
Qed.

Lemma contrast_pivot_witness :
  -100 <= -20 <= 100 /\
  adjust_contrast_cell (-20) (RGB 0.5 0.5 0.5) = RGB 0.5 0.5 0.5.
Proof.
  assert (H : -100 <= -20 <= 100) by lra.
  split; [exact H|]. exact (proj1 (contrast_pivot (-20) H)).
Defined.

(** ** Saturation *)

(** X6.  On a grid with cells in [[0,1]], saturation -100 replaces every
    cell by the gray of its luminance, and any amount in [[-100, 0]] mixes
    each channel with the luminance without clamping; a neutral cell (equal
    channels) is left unchanged by every amount. *)
Theorem saturation_towards_gray (lut : Grid) (Hlut : grid_unit lut) :
  adjust_saturation lut (-100)
  = grid_map (fun p => RGB (luminance p) (luminance p) (luminance p)) lut /\
  (forall amount, -100 <= amount <= 0 ->
     adjust_saturation lut amount
     = grid_map
         (fun p =>
            per_channel
              (fun x => luminance p + (x - luminance p) * (1 + amount / 100))
              p) lut) /\
  (forall amount v, unit_interval v ->
     adjust_saturation_cell amount (RGB v v v) = RGB v v v).
Proof.
  assert (Hmix : forall amount, -100 <= amount <= 0 ->
     adjust_saturation lut amount
     = grid_map
         (fun p =>
            per_channel
              (fun x => luminance p + (x - luminance p) * (1 + amount / 100))
              p) lut).
  { intros amount Ha. unfold adjust_saturation.
    apply (grid_map_ext_on _ _ cell_unit); [|exact Hlut].
    intros p Hp. unfold adjust_saturation_cell. cbv zeta.
    apply clip_cell_id. now apply desaturation_in_unit. }
  split; [|split; [exact Hmix|]].
  - rewrite Hmix by lra.
    apply (grid_map_ext_on _ _ cell_unit); [|exact Hlut].
    intros p _. unfold per_channel; simpl. f_equal; lra.
  - intros amount v Hv. unfold adjust_saturation_cell. cbv zeta.
    assert (HL : luminance (RGB v v v) = v) by (unfold luminance; simpl; lra).
    rewrite HL. unfold per_channel; simpl.
    replace (v + (v - v) * (1 + amount / 100)) with v by lra.
    apply clip_cell_id. unfold cell_unit; simpl. auto.
Qed.

Lemma saturation_towards_gray_witness :
  grid_unit [[[RGB 0.5 0 0]]] /\
  adjust_saturation [[[RGB 0.5 0 0]]] (-100)
  = [[[RGB (luminance (RGB 0.5 0 0)) (luminance (RGB 0.5 0 0))
           (luminance (RGB 0.5 0 0))]]].
Proof.
  assert (H : grid_unit [[[RGB 0.5 0 0]]]).
  { repeat constructor; simpl; lra. }
  split; [exact H|].
  exact (proj1 (saturation_towards_gray _ H)).
Defined.

(** ** Cells the hue-range operator does not select *)

Lemma gray_saturation (v : R) : hsl_saturation (RGB v v v) = 0.
Proof.
  unfold hsl_saturation; simpl.
  rewrite (Rmax_left v v), (Rmax_left v v) by lra.
  rewrite (Rmin_left v v), (Rmin_left v v) by lra.
  destruct (Rltb 0.001 v); [|reflexivity].
  unfold Rdiv. rewrite Rminus_diag. apply Rmult_0_l.
Qed.

(** X7.  Whatever the hue range and the three shifts, [hsl_adjust] leaves a
    cell of [[0,1]] unchanged when its selection strength is 0; every
    neutral cell (equal channels) has strength 0, so grays are never
    affected. *)
Theorem hsl_adjust_unselected (range : R * R)
    (hue_shift sat_shift lum_shift : R) :
  (forall p, cell_unit p -> hsl_strength range p = 0 ->
     hsl_adjust_cell range hue_shift sat_shift lum_shift p = p) /\
  (forall v, hsl_strength range (RGB v v v) = 0) /\
  (forall v, unit_interval v ->
     hsl_adjust_cell range hue_shift sat_shift lum_shift (RGB v v v)
     = RGB v v v).
Proof.
  assert (Hzero : forall p, cell_unit p -> hsl_strength range p = 0 ->
     hsl_adjust_cell range hue_shift sat_shift lum_shift p = p).
  { intros p Hp Hs. unfold hsl_adjust_cell. cbv zeta. rewrite Hs.
    transitivity (clip_cell p); [|now apply clip_cell_id].
    f_equal. destruct p as [r g b].
    destruct (Req_dec_T sat_shift 0); destruct (Req_dec_T lum_shift 0);
      destruct (Req_dec_T hue_shift 0);
      unfold per_channel, luminance; simpl; f_equal; lra. }
  assert (Hgray : forall v, hsl_strength range (RGB v v v) = 0).
  { intros v. unfold hsl_strength. rewrite gray_saturation.
    rewrite (np_clip_id (0 * 3)) by (unfold unit_interval; lra). lra. }
  split; [exact Hzero|]. split; [exact Hgray|].
  intros v Hv. apply Hzero; [|apply Hgray].
  unfold cell_unit; simpl. auto.
Qed.

Lemma hsl_adjust_unselected_witness :
  unit_interval 0.25 /\
  hsl_adjust_cell (15, 45) (-25) 0.1 0.2 (RGB 0.25 0.25 0.25)
  = RGB 0.25 0.25 0.25.
Proof.
  assert (H : unit_interval 0.25) by (unfold unit_interval; lra).
  split; [exact H|].
  exact (proj2 (proj2 (hsl_adjust_unselected (15, 45) (-25) 0.1 0.2)) 0.25 H).
Defined.

(** ** The smooth hue window *)

(** X8.  For [h_min < h_max], with centre [c = (h_min + h_max) / 2] and
    half-width [w = (h_max - h_min) / 2], the hue window is 1 within
    [0.6 * w] of the centre, 0 at distance [w] or more (so 0 for every hue
    outside the range), and falls linearly in between. *)
Theorem hue_window_band (h_min h_max hue : R) (Hband : h_min < h_max) :
  let c := (h_min + h_max) / 2 in
  let w := (h_max - h_min) / 2 in
  (Rabs (hue - c) <= 0.6 * w -> hue_window (h_min, h_max) hue = 1) /\
  (w <= Rabs (hue - c) -> hue_window (h_min, h_max) hue = 0) /\
  (hue <= h_min \/ h_max <= hue -> hue_window (h_min, h_max) hue = 0) /\
  (0.6 * w <= Rabs (hue - c) <= w ->
   hue_window (h_min, h_max) hue = (w - Rabs (hue - c)) / (0.4 * w)) /\
  unit_interval (hue_window (h_min, h_max) hue).
Proof.
  intros c w. unfold hue_window.
  destruct (Rlt_dec h_min h_max) as [_|Hn]; [|contradiction].
  cbv zeta. fold c. fold w.
  set (d := Rabs (hue - c)).
  assert (Hw : 0 < w) by (unfold w; lra).
  replace (0.4 * w) with (w * 0.4) by lra.
  assert (Hden : 0 < / (w * 0.4)) by (apply Rinv_0_lt_compat; lra).
  assert (Hinv : (w * 0.4) * / (w * 0.4) = 1) by (apply Rinv_r; lra).
  unfold Rdiv. set (i := / (w * 0.4)) in *.
  assert (Hfar : w <= d -> np_clip (1 - (d - w * 0.6) * i) 0 1 = 0).
  { intros H. apply np_clip_low. nra. }
  split; [|split; [exact Hfar | split; [|split]]].
  - intros H. apply np_clip_high. nra.
  - intros H. apply Hfar. unfold d, c, w, Rabs.
    destruct (Rcase_abs (hue - (h_min + h_max) / 2)); lra.
  - intros [H1 H2].
    rewrite np_clip_id by (unfold unit_interval; split; nra). nra.
  - apply np_clip_unit.
Qed.

Lemma hue_window_band_witness :
  15 < 45 /\ hue_window (15, 45) 30 = 1 /\ hue_window (15, 45) 50 = 0.
Proof.
  assert (H : 15 < 45) by lra.
  split; [exact H|].
  split.
  - apply (proj1 (hue_window_band 15 45 30 H)).
    unfold Rabs. destruct (Rcase_abs (30 - (15 + 45) / 2)); lra.
  - apply (proj1 (proj2 (proj2 (hue_window_band 15 45 50 H)))). right. lra.
Defined.

(** ** Ranges of hue, saturation and strength *)

Lemma np_mod_range (x m : R) : 0 < m -> 0 <= np_mod x m < m.
Proof.
  intros Hm. unfold np_mod.
  destruct (base_Int_part (x / m)) as [H1 H2].
  set (k := IZR (Int_part (x / m))) in *.
  assert (Hx : x = x / m * m) by (field; lra).
  set (q := x / m) in *.
  split; nra.
Qed.

Lemma hsl_saturation_unit (p : rgb) :
  0 <= chR p -> 0 <= chG p -> 0 <= chB p ->
  unit_interval (hsl_saturation p).
Proof.
  intros Hr Hg Hb. unfold hsl_saturation. cbv zeta.
  set (cmax := Rmax (Rmax (chR p) (chG p)) (chB p)).
  set (cmin := Rmin (Rmin (chR p) (chG p)) (chB p)).
  assert (Hmin0 : 0 <= cmin).
  { unfold cmin. apply Rmin_glb; [apply Rmin_glb|]; assumption. }
  assert (Hminmax : cmin <= cmax).
  { unfold cmin, cmax.
    apply Rle_trans with (chB p); [apply Rmin_r | apply Rmax_r]. }
  unfold unit_interval, Rltb.
  destruct (Rlt_dec 0.001 cmax) as [Hpos|_]; [|lra].
  assert (Hinv : 0 < / cmax) by (apply Rinv_0_lt_compat; lra).
  assert (Hone : cmax * / cmax = 1) by (apply Rinv_r; lra).
  unfold Rdiv. set (i := / cmax) in *. split; nra.
Qed.

(** X9.  The hue of every cell lies in [[0, 360)]; for a cell with
    non-negative channels the saturation lies in [[0,1]], and the selection
    strength lies in [[0,1]] for every hue range. *)
Theorem hsl_ranges (p : rgb)
    (Hr : 0 <= chR p) (Hg : 0 <= chG p) (Hb : 0 <= chB p) :
  0 <= hsl_hue p < 360 /\
  unit_interval (hsl_saturation p) /\
  forall range, unit_interval (hsl_strength range p).
Proof.
  split; [|split].
  - unfold hsl_hue. cbv zeta. apply np_mod_range. lra.
  - now apply hsl_saturation_unit.
  - intros [h_min h_max]. unfold hsl_strength.
    pose proof (np_clip_unit (hsl_saturation p * 3)) as [Hs0 Hs1].
    assert (Hwin : unit_interval (hue_window (h_min, h_max) (hsl_hue p))).
    { unfold hue_window.
      destruct (Rlt_dec h_min h_max); [apply np_clip_unit|].
      cbv zeta. unfold unit_interval.
      destruct (Rleb h_min (hsl_hue p) || Rleb (hsl_hue p) h_max); lra. }
    destruct Hwin as [Hw0 Hw1]. unfold unit_interval. split; nra.
Qed.

Lemma hsl_ranges_witness :
  0 <= hsl_hue (RGB 1 0 0.25) < 360 /\
  unit_interval (hsl_strength (350, 10) (RGB 1 0 0.25)).
Proof.
  destruct (hsl_ranges (RGB 1 0 0.25)) as [Hh [_ Hs]]; simpl; try lra.
  split; [exact Hh | apply Hs].
Defined.

(** ** Tonal zones *)

Lemma np_power_zero (y : R) : np_power 0 y = 0.
Proof.
  unfold np_power. destruct (Req_dec_T 0 0) as [_|Hn]; [reflexivity|].
  now contradiction Hn.
Qed.

Lemma np_power_nonneg (x y : R) : 0 <= np_power x y.
Proof.
  unfold np_power. destruct (Req_dec_T x 0); [lra|].
  left. apply exp_pos.
Qed.

Lemma shift_zero_cell (m k : R) (p : rgb) :
  cell_unit p -> m = 0 ->
  clip_cell (per_channel (fun x => x + m * k) p) = p.
Proof.
  intros Hp ->.
  transitivity (clip_cell p); [|now apply clip_cell_id].
  f_equal. destruct p; unfold per_channel; simpl. f_equal; lra.
Qed.

(** X10.  Each zone operator leaves the cells outside its zone untouched,
    whatever the amount: highlights acts only above luminance 0.5, shadows
    only below 0.5, whites only above 0.7 and blacks only below 10/33. *)
Theorem zone_locality (amount : R) (p : rgb) (Hp : cell_unit p) :
  (luminance p <= 0.5 -> adjust_highlights_cell amount p = p) /\
  (0.5 <= luminance p -> adjust_shadows_cell amount p = p) /\
  (luminance p <= 0.7 -> adjust_whites_cell amount p = p) /\
  (10 / 33 <= luminance p -> adjust_blacks_cell amount p = p).
Proof.
  repeat split; intros HL.
  - unfold adjust_highlights_cell. cbv zeta.
    rewrite np_clip_low by lra. rewrite np_power_zero.
    transitivity (clip_cell p); [|now apply clip_cell_id].
    f_equal. destruct p; unfold per_channel; simpl. f_equal; lra.
  - unfold adjust_shadows_cell. cbv zeta.
    rewrite np_clip_low by lra. rewrite np_power_zero.
    transitivity (clip_cell p); [|now apply clip_cell_id].
    f_equal. destruct p; unfold per_channel; simpl. f_equal; lra.
  - unfold adjust_whites_cell. cbv zeta.
    rewrite np_clip_low by lra.
    transitivity (clip_cell p); [|now apply clip_cell_id].
    f_equal. destruct p; unfold per_channel; simpl. f_equal; lra.
  - unfold adjust_blacks_cell. cbv zeta.
    rewrite np_clip_low by lra.
    transitivity (clip_cell p); [|now apply clip_cell_id].
    f_equal. destruct p; unfold per_channel; simpl. f_equal; lra.
Qed.

Lemma zone_locality_witness :
  cell_unit (RGB 0.2 0.2 0.2) /\
  adjust_highlights_cell (-50) (RGB 0.2 0.2 0.2) = RGB 0.2 0.2 0.2.
Proof.
  assert (H : cell_unit (RGB 0.2 0.2 0.2)).
  { unfold cell_unit, unit_interval; simpl. lra. }
  split; [exact H|].
  apply (proj1 (zone_locality (-50) _ H)).
  unfold luminance; simpl. lra.
Defined.

Lemma shift_up_cell (s : R) (p : rgb) :
  cell_unit p -> 0 <= s ->
  channels_le p (clip_cell (per_channel (fun x => x + s) p)).
Proof.
  intros [Hr [Hg Hb]] Hs. unfold channels_le, clip_cell, per_channel; simpl.
  rewrite <- (np_clip_id (chR p)) at 1 by assumption.
  rewrite <- (np_clip_id (chG p)) at 1 by assumption.
  rewrite <- (np_clip_id (chB p)) at 1 by assumption.
  repeat split; apply np_clip_mono; lra.
Qed.

Lemma shift_down_cell (s : R) (p : rgb) :
  cell_unit p -> s <= 0 ->
  channels_le (clip_cell (per_channel (fun x => x + s) p)) p.
Proof.
  intros [Hr [Hg Hb]] Hs. unfold channels_le, clip_cell, per_channel; simpl.
  rewrite <- (np_clip_id (chR p)) at 2 by assumption.
  rewrite <- (np_clip_id (chG p)) at 2 by assumption.
  rewrite <- (np_clip_id (chB p)) at 2 by assumption.
  repeat split; apply np_clip_mono; lra.
Qed.

(** X11.  On a cell of [[0,1]], a zone operator with a non-negative amount
    never lowers a channel and one with a non-positive amount never raises
    a channel. *)
Theorem zone_direction (amount : R) (p : rgb) (Hp : cell_unit p) :
  (0 <= amount ->
   channels_le p (adjust_highlights_cell amount p) /\
   channels_le p (adjust_shadows_cell amount p) /\
   channels_le p (adjust_whites_cell amount p) /\
   channels_le p (adjust_blacks_cell amount p)) /\
  (amount <= 0 ->
   channels_le (adjust_highlights_cell amount p) p /\
   channels_le (adjust_shadows_cell amount p) p /\
   channels_le (adjust_whites_cell amount p) p /\
   channels_le (adjust_blacks_cell amount p) p).
Proof.
  assert (Hpow : forall x, 0 <= np_power x 1.5) by (intros; apply np_power_nonneg).
  assert (Hsq : forall x : R, 0 <= x ^ 2) by (intros; apply pow2_ge_0).
  unfold adjust_highlights_cell, adjust_shadows_cell, adjust_whites_cell,
    adjust_blacks_cell. cbv zeta.
  split; intros Ha; repeat split;
    first [ apply (shift_up_cell _ p Hp) | apply (shift_down_cell _ p Hp) ];
    match goal with
    | |- context [np_power ?x 1.5] => specialize (Hpow x)
    | |- context [?x ^ 2] => specialize (Hsq x)
    end; nra.
Qed.

Lemma zone_direction_witness :
  cell_unit (RGB 0.2 0.1 0.3) /\
  channels_le (RGB 0.2 0.1 0.3) (adjust_shadows_cell 40 (RGB 0.2 0.1 0.3)).
Proof.
  assert (H : cell_unit (RGB 0.2 0.1 0.3)).
  { unfold cell_unit, unit_interval; simpl. lra. }
  split; [exact H|].
  destruct (zone_direction 40 _ H) as [Hup _].
  destruct (Hup ltac:(lra)) as [_ [Hs _]]. exact Hs.
Defined.

(** ** Split toning *)

(** X12.  [split_tone] with both colours at neutral gray (0.5, 0.5, 0.5)
    leaves every cell of [[0,1]] unchanged, and so does any split tone on a
    cell of luminance exactly 0.5; the shadow colour has no effect on cells
    of luminance 0.5 or more and the highlight colour none on cells of
    luminance 0.5 or less. *)
Theorem split_tone_zones (shadow_rgb highlight_rgb : rgb) (balance : R)
    (p : rgb) :
  (cell_unit p ->
   split_tone_cell (RGB 0.5 0.5 0.5) (RGB 0.5 0.5 0.5) balance p = p) /\
  (cell_unit p -> luminance p = 0.5 ->
   split_tone_cell shadow_rgb highlight_rgb balance p = p) /\
  (0.5 <= luminance p ->
   forall shadow_rgb',
     split_tone_cell shadow_rgb highlight_rgb balance p
     = split_tone_cell shadow_rgb' highlight_rgb balance p) /\
  (luminance p <= 0.5 ->
   forall highlight_rgb',
     split_tone_cell shadow_rgb highlight_rgb balance p
     = split_tone_cell shadow_rgb highlight_rgb' balance p).
Proof.
  split; [|split; [|split]].
  - intros Hp. unfold split_tone_cell. cbv zeta.
    transitivity (clip_cell p); [|now apply clip_cell_id].
    f_equal. destruct p; simpl. f_equal; lra.
  - intros Hp HL. unfold split_tone_cell. cbv zeta.
    rewrite (np_clip_low (1 - luminance p * 2)) by lra.
    rewrite (np_clip_low ((luminance p - 0.5) * 2)) by lra.
    rewrite np_power_zero.
    transitivity (clip_cell p); [|now apply clip_cell_id].
    f_equal. destruct p; simpl. f_equal; lra.
  - intros HL shadow_rgb'. unfold split_tone_cell. cbv zeta.
    rewrite (np_clip_low (1 - luminance p * 2)) by lra.
    rewrite np_power_zero.
    f_equal. f_equal; lra.
  - intros HL highlight_rgb'. unfold split_tone_cell. cbv zeta.
    rewrite (np_clip_low ((luminance p - 0.5) * 2)) by lra.
    rewrite np_power_zero.
    f_equal. f_equal; lra.
Qed.

Lemma split_tone_zones_witness :
  cell_unit (RGB 0.5 0.5 0.5) /\
  split_tone_cell (RGB 0.55 0.48 0.42) (RGB 0.55 0.52 0.45) 0.5
    (RGB 0.5 0.5 0.5)
  = RGB 0.5 0.5 0.5.
Proof.
  assert (H : cell_unit (RGB 0.5 0.5 0.5)).
  { unfold cell_unit, unit_interval; simpl. lra. }
  split; [exact H|].
  apply (proj1 (proj2 (split_tone_zones _ _ 0.5 _)) H).
  unfold luminance; simpl. lra.
Defined.

(** ** Temperature and tint *)

Lemma np_clip_up (x s : R) :
  unit_interval x -> 0 <= s -> x <= np_clip (x + s) 0 1.
Proof.
  intros Hx Hs. rewrite <- (np_clip_id x) at 1 by assumption.
  apply np_clip_mono. lra.
Qed.

Lemma np_clip_down (x s : R) :
  unit_interval x -> s <= 0 -> np_clip (x + s) 0 1 <= x.
Proof.
  intros Hx Hs. rewrite <- (np_clip_id x) at 2 by assumption.
  apply np_clip_mono. lra.
Qed.

(** X13.  On a cell of [[0,1]], a non-negative temperature never lowers
    red or green and never raises blue, and a non-negative tint never
    raises green and never lowers red or blue; non-positive amounts act the
    other way round. *)
Theorem temperature_tint_direction (amount : R) (p : rgb)
    (Hp : cell_unit p) :
  (0 <= amount ->
   chR p <= chR (adjust_temperature_cell amount p) /\
   chG p <= chG (adjust_temperature_cell amount p) /\
   chB (adjust_temperature_cell amount p) <= chB p /\
   chR p <= chR (adjust_tint_cell amount p) /\
   chG (adjust_tint_cell amount p) <= chG p /\
   chB p <= chB (adjust_tint_cell amount p)) /\
  (amount <= 0 ->
   chR (adjust_temperature_cell amount p) <= chR p /\
   chG (adjust_temperature_cell amount p) <= chG p /\
   chB p <= chB (adjust_temperature_cell amount p) /\
   chR (adjust_tint_cell amount p) <= chR p /\
   chG p <= chG (adjust_tint_cell amount p) /\
   chB (adjust_tint_cell amount p) <= chB p).
Proof.
  destruct Hp as [Hr [Hg Hb]].
  unfold adjust_temperature_cell, adjust_tint_cell, clip_cell. cbv zeta.
  simpl.
  split; intros Ha; repeat split;
    first [ apply np_clip_up; [assumption | lra]
          | apply np_clip_down; [assumption | lra]
          | apply (np_clip_down _ (- (amount / 100 * 0.06)));
              [assumption | lra]
          | apply (np_clip_up _ (- (amount / 100 * 0.06)));
              [assumption | lra]
          | apply (np_clip_down _ (- (amount / 100 * 0.04)));
              [assumption | lra]
          | apply (np_clip_up _ (- (amount / 100 * 0.04)));
              [assumption | lra] ].
Qed.

Lemma temperature_tint_direction_witness :
  cell_unit (RGB 0.5 0.25 1) /\
  chB (adjust_temperature_cell 12 (RGB 0.5 0.25 1)) <= chB (RGB 0.5 0.25 1).
Proof.
  assert (H : cell_unit (RGB 0.5 0.25 1)).
  { unfold cell_unit, unit_interval; simpl. lra. }
  split; [exact H|].
  destruct (temperature_tint_direction 12 _ H) as [Hup _].
  destruct (Hup ltac:(lra)) as [_ [_ [Hblue _]]]. exact Hblue.
Defined.

(** ** Sorting the control points *)

Lemma insert_point_perm (q : R * R) (l : list (R * R)) :
  Permutation (q :: l) (insert_point q l).
Proof.
  induction l as [|p l IH]; simpl; [apply Permutation_refl|].
  destruct (Rlt_dec (fst p) (fst q)).
  - apply perm_trans with (p :: q :: l); [apply perm_swap|].
    now apply perm_skip.
  - apply Permutation_refl.
Qed.

Lemma sorted_perm (points : list (R * R)) :
  Permutation points (sorted points).
Proof.
  induction points as [|q l IH]; simpl; [apply perm_nil|].
  apply perm_trans with (q :: sorted l); [now apply perm_skip|].
  apply insert_point_perm.
Qed.

Lemma sorted_of_ascending (points : list (R * R)) :
  ascending points -> sorted points = points.
Proof.
  induction 1 as [|q l Hq Hl IH]; simpl; [reflexivity|].
  rewrite IH. destruct l as [|p l']; simpl; [reflexivity|].
  inversion Hq as [|? ? Hp _]; subst.
  destruct (Rlt_dec (fst p) (fst q)) as [Hlt|_]; [lra | reflexivity].
Qed.

Lemma insert_point_filter (k : R) (q : R * R) (l : list (R * R)) :
  filter (fun p => Reqb (fst p) k) (insert_point q l)
  = filter (fun p => Reqb (fst p) k) (q :: l).
Proof.
  induction l as [|p l IH]; simpl; [reflexivity|].
  destruct (Rlt_dec (fst p) (fst q)) as [Hlt|Hge]; [|reflexivity].
  simpl. rewrite IH. simpl.
  unfold Reqb.
  destruct (Req_dec_T (fst p) k) as [Hp|Hp];
    destruct (Req_dec_T (fst q) k) as [Hq|Hq]; try reflexivity.
  lra.
Qed.

(** X14.  [sorted] is a stable sort by input: its result is a permutation
    of the control points with non-decreasing inputs, points with equal
    inputs keep their original order, and a list that is already in
    non-decreasing order is returned unchanged (so sorting twice changes
    nothing). *)
Theorem sorted_stable (points : list (R * R)) :
  Permutation points (sorted points) /\
  ascending (sorted points) /\
  (forall k, filter (fun p => Reqb (fst p) k) (sorted points)
             = filter (fun p => Reqb (fst p) k) points) /\
  (ascending points -> sorted points = points) /\
  sorted (sorted points) = sorted points.
Proof.
  split; [apply sorted_perm|].
  split; [apply sorted_ascending|].
  split; [|split; [apply sorted_of_ascending|]].
  - intros k. induction points as [|q l IH]; [reflexivity|].
    simpl sorted. rewrite insert_point_filter. simpl. now rewrite IH.
  - apply sorted_of_ascending, sorted_ascending.
Qed.

Lemma sorted_stable_witness :
  ascending [(0, 0.05); (0.5, 0.52); (1, 0.98)] /\
  sorted [(0, 0.05); (0.5, 0.52); (1, 0.98)]
  = [(0, 0.05); (0.5, 0.52); (1, 0.98)].
Proof.
  assert (H : ascending [(0, 0.05); (0.5, 0.52); (1, 0.98)]).
  { repeat constructor; simpl; lra. }
  split; [exact H|].
  apply (proj1 (proj2 (proj2 (proj2 (sorted_stable _)))) H).
Defined.

(** ** The curve at and between its control points *)

Lemma ascending_head_min (q p : R * R) (l : list (R * R)) :
  ascending (q :: l) -> In p (q :: l) -> fst q <= fst p.
Proof.
  intros Hasc Hin. inversion Hasc as [|? ? Habove _]; subst.
  destruct Hin as [->|Hin]; [lra|].
  unfold above in Habove. rewrite Forall_forall in Habove. now apply Habove.
Qed.

Lemma interp_from_through (rest : list (R * R)) (q p : R * R) :
  ascending (q :: rest) -> NoDup (map fst (q :: rest)) ->
  In p (q :: rest) ->
  interp_from (fst p) (fst q) (snd q) (map fst rest) (map snd rest) = snd p.
Proof.
  revert q. induction rest as [|q1 rest IH]; intros q Hasc Hnd Hin.
  - destruct Hin as [->|[]]. reflexivity.
  - simpl. inversion Hasc as [|? ? Habove Htail]; subst.
    inversion Hnd as [|? ? Hnotin Hnd']; subst.
    assert (Hq1 : fst q < fst q1).
    { inversion Habove as [|? ? Hle _]; subst.
      destruct (Req_dec_T (fst q) (fst q1)) as [Heq|Hne]; [|lra].
      exfalso. apply Hnotin. simpl. left. now symmetry. }
    destruct Hin as [->|Hin].
    + destruct (Rlt_dec (fst p) (fst q1)) as [_|Hn]; [|lra].
      destruct (Req_dec_T (fst p) (fst p)) as [_|Hn]; [reflexivity|].
      now contradiction Hn.
    + pose proof (ascending_head_min q1 p rest Htail Hin) as Hge.
      destruct (Rlt_dec (fst p) (fst q1)) as [Hlt|_]; [lra|].
      now apply IH.
Qed.

(** X15.  When the control points have pairwise distinct inputs, the curve
    passes through every one of them: at the input of a control point
    [apply_curve] returns that point's output. *)
Theorem curve_through_points (points : list (R * R)) (p : R * R)
    (Hdistinct : NoDup (map fst points)) (Hin : In p points) :
  apply_curve [[[fst p]]] points = Ok [[[snd p]]].
Proof.
  assert (Hne : points <> []) by (intros ->; contradiction).
  rewrite apply_curve_ok by exact Hne. simpl. do 4 f_equal.
  unfold curve_value.
  pose proof (sorted_ascending points) as Hasc.
  assert (Hnd : NoDup (map fst (sorted points))).
  { eapply Permutation_NoDup; [|exact Hdistinct].
    apply Permutation_map, sorted_perm. }
  apply sorted_In in Hin.
  destruct (sorted points) as [|q rest]; [contradiction|].
  unfold interp_point.
  pose proof (ascending_head_min q p rest Hasc Hin) as Hmin.
  destruct (Rlt_dec (fst p) (fst q)) as [Hlt|_]; [lra|].
  now apply interp_from_through.
Qed.

Lemma curve_through_points_witness :
  NoDup (map fst [(0.5, 0.52); (0, 0.05)]) /\
  In (0.5, 0.52) [(0.5, 0.52); (0, 0.05)] /\
  apply_curve [[[0.5]]] [(0.5, 0.52); (0, 0.05)] = Ok [[[0.52]]].
Proof.
  assert (Hnd : NoDup (map fst [(0.5, 0.52); (0, 0.05)])).
  { simpl. constructor.
    - simpl. intros [H|[]]. lra.
    - constructor; [intros [] | constructor]. }
  assert (Hin : In (0.5, 0.52) [(0.5, 0.52); (0, 0.05)]) by now left.
  split; [exact Hnd|]. split; [exact Hin|].
  exact (curve_through_points _ (0.5, 0.52) Hnd Hin).
Defined.

(** ** The order in which control points are given *)

Lemma ascending_perm_unique (l1 l2 : list (R * R)) :
  ascending l1 -> ascending l2 -> NoDup (map fst l1) ->
  Permutation l1 l2 -> l1 = l2.
Proof.
  revert l2. induction l1 as [|h1 t1 IH]; intros l2 H1 H2 Hnd Hperm.
  - apply Permutation_nil in Hperm. now subst.
  - destruct l2 as [|h2 t2].
    + apply Permutation_sym, Permutation_nil in Hperm. discriminate.
    + assert (Hin1 : In h1 (h2 :: t2)).
      { eapply Permutation_in; [exact Hperm | now left]. }
      assert (Hin2 : In h2 (h1 :: t1)).
      { eapply Permutation_in; [apply Permutation_sym; exact Hperm|].
        now left. }
      pose proof (ascending_head_min h2 h1 t2 H2 Hin1) as Hle1.
      pose proof (ascending_head_min h1 h2 t1 H1 Hin2) as Hle2.
      inversion Hnd as [|? ? Hnotin Hnd']; subst.
      assert (Hh : h1 = h2).
      { destruct Hin2 as [Heq|Hin]; [exact Heq|].
        exfalso. apply Hnotin.
        replace (fst h1) with (fst h2) by lra.
        now apply in_map. }
      subst h2. f_equal.
      inversion H1; inversion H2; subst.
      apply IH; try assumption.
      now apply Permutation_cons_inv with h1.
Qed.

(** X16.  When the control points have pairwise distinct inputs, the curve
    does not depend on the order in which they are listed: two lists that
    are permutations of each other give the same [apply_curve]. *)
Theorem curve_order_independent (points points' : list (R * R)) (x : Array3)
    (Hdistinct : NoDup (map fst points))
    (Hperm : Permutation points points') :
  apply_curve x points = apply_curve x points'.
Proof.
  unfold apply_curve. cbv zeta.
  replace (sorted points') with (sorted points); [reflexivity|].
  apply ascending_perm_unique; try apply sorted_ascending.
  - eapply Permutation_NoDup; [|exact Hdistinct].
    apply Permutation_map, sorted_perm.
  - apply perm_trans with points; [apply Permutation_sym, sorted_perm|].
    apply perm_trans with points'; [exact Hperm | apply sorted_perm].
Qed.

Lemma curve_order_independent_witness :
  NoDup (map fst [(0.5, 0.52); (0, 0.05)]) /\
  Permutation [(0.5, 0.52); (0, 0.05)] [(0, 0.05); (0.5, 0.52)] /\
  apply_curve [[[0.25]]] [(0.5, 0.52); (0, 0.05)]
  = apply_curve [[[0.25]]] [(0, 0.05); (0.5, 0.52)].
Proof.
  assert (Hnd : NoDup (map fst [(0.5, 0.52); (0, 0.05)])).
  { simpl. constructor.
    - simpl. intros [H|[]]. lra.
    - constructor; [intros [] | constructor]. }
  assert (Hp : Permutation [(0.5, 0.52); (0, 0.05)] [(0, 0.05); (0.5, 0.52)])
    by apply perm_swap.
  split; [exact Hnd|]. split; [exact Hp|].
  exact (curve_order_independent _ _ [[[0.25]]] Hnd Hp).
Defined.

(** ** Control points on a straight line *)

Lemma interp_from_linear (a c : R) (rest : list (R * R)) (q : R * R) (x : R) :
  fst q <= x -> x <= fst (last (q :: rest) (0, 0)) ->
  Forall (fun p => snd p = a * fst p + c) (q :: rest) ->
  interp_from x (fst q) (snd q) (map fst rest) (map snd rest) = a * x + c.
Proof.
  revert q. induction rest as [|q1 rest IH]; intros q Hlo Hhi Hline.
  - simpl in *. inversion Hline as [|? ? Hq _]; subst.
    rewrite Hq. replace x with (fst q) by lra. reflexivity.
  - inversion Hline as [|? ? Hq Hline']; subst.
    pose proof Hline' as Hline1.
    inversion Hline1 as [|? ? Hq1 _]; subst.
    change (last (q :: q1 :: rest) (0, 0)) with (last (q1 :: rest) (0, 0))
      in Hhi.
    simpl. destruct (Rlt_dec x (fst q1)) as [Hlt|Hge].
    + destruct (Req_dec_T x (fst q)) as [->|Hne]; [exact Hq|].
      rewrite Hq, Hq1.
      assert (Hd : fst q1 - fst q <> 0) by lra.
      field. exact Hd.
    + apply IH; [lra | exact Hhi | exact Hline'].
Qed.

(** X17.  Interpolation is exact on straight lines: when every control
    point lies on the line [y = a * x + c], [apply_curve] returns
    [a * x + c] for every [x] between the smallest and the largest
    control-point input. *)
Theorem curve_linear_exact (points : list (R * R)) (a c x : R)
    (Hne : points <> [])
    (Hline : Forall (fun p => snd p = a * fst p + c) points)
    (Hlo : fst (hd (0, 0) (sorted points)) <= x)
    (Hhi : x <= fst (last (sorted points) (0, 0))) :
  apply_curve [[[x]]] points = Ok [[[a * x + c]]].
Proof.
  rewrite apply_curve_ok by exact Hne. simpl. do 4 f_equal.
  unfold curve_value.
  apply (sorted_Forall _ _) in Hline.
  destruct (sorted_cons points Hne) as [q [rest Hs]].
  rewrite Hs in *. simpl hd in Hlo. unfold interp_point.
  destruct (Rlt_dec x (fst q)) as [Hlt|_]; [lra|].
  now apply (interp_from_linear a c).
Qed.

Lemma curve_linear_exact_witness :
  [(0, 0); (1, 1)] <> [] /\
  apply_curve [[[0.3]]] [(0, 0); (1, 1)] = Ok [[[1 * 0.3 + 0]]].
Proof.
  assert (Hne : [(0, 0); (1, 1)] <> []) by discriminate.
  assert (Hs : sorted [(0, 0); (1, 1)] = [(0, 0); (1, 1)]).
  { apply sorted_of_ascending. repeat constructor; simpl; lra. }
  split; [exact Hne|].
  apply (curve_linear_exact _ 1 0 0.3 Hne).
  - repeat constructor; simpl; lra.
  - rewrite Hs. simpl. lra.
  - rewrite Hs. simpl. lra.
Defined.

(** ** Monotone curves *)

Lemma segment_bounds (x0 x1 y0 y1 x : R) :
  x0 <= x -> x < x1 -> y0 <= y1 ->
  y0 <= (y1 - y0) / (x1 - x0) * (x - x0) + y0 <= y1.
Proof.
  intros Hlo Hhi Hy.
  assert (Hi : 0 < / (x1 - x0)) by (apply Rinv_0_lt_compat; lra).
  assert (Hone : (x1 - x0) * / (x1 - x0) = 1) by (apply Rinv_r; lra).
  unfold Rdiv. set (i := / (x1 - x0)) in *.
  assert (Hs : 0 <= (y1 - y0) * i) by (apply Rmult_le_pos; lra).
  assert (Hu : (x - x0) * i <= 1) by nra.
  assert (Hu0 : 0 <= (x - x0) * i) by (apply Rmult_le_pos; lra).
  split; nra.
Qed.

Lemma segment_mono (x0 x1 y0 y1 x x' : R) :
  x0 <= x -> x <= x' -> x' < x1 -> y0 <= y1 ->
  (y1 - y0) / (x1 - x0) * (x - x0) + y0
  <= (y1 - y0) / (x1 - x0) * (x' - x0) + y0.
Proof.
  intros Hlo Hxx Hhi Hy.
  assert (Hi : 0 < / (x1 - x0)) by (apply Rinv_0_lt_compat; lra).
  unfold Rdiv. set (i := / (x1 - x0)) in *.
  assert (Hs : 0 <= (y1 - y0) * i) by (apply Rmult_le_pos; lra).
  nra.
Qed.

Lemma interp_from_lower (xp fp : list R) (x x0 y0 : R) :
  x0 <= x -> nondecreasing (y0 :: fp) ->
  y0 <= interp_from x x0 y0 xp fp.
Proof.
  revert fp x0 y0.
  induction xp as [|x1 xp IH]; intros fp x0 y0 Hx Hnd; simpl; [lra|].
  destruct fp as [|y1 fp]; [lra|].
  destruct Hnd as [Hy Hnd'].
  destruct (Rlt_dec x x1) as [Hlt|Hge].
  - destruct (Req_dec_T x x0); [lra|].
    apply segment_bounds; lra.
  - apply Rle_trans with y1; [exact Hy|].
    apply IH; [lra | exact Hnd'].
Qed.

Lemma interp_from_mono (xp fp : list R) (x x' x0 y0 : R) :
  x0 <= x -> x <= x' -> nondecreasing (y0 :: fp) ->
  interp_from x x0 y0 xp fp <= interp_from x' x0 y0 xp fp.
Proof.
  revert fp x0 y0.
  induction xp as [|x1 xp IH]; intros fp x0 y0 Hx Hxx Hnd; simpl; [lra|].
  destruct fp as [|y1 fp]; [lra|].
  pose proof Hnd as [Hy Hnd'].
  destruct (Rlt_dec x x1) as [Hlt|Hge];
    destruct (Rlt_dec x' x1) as [Hlt'|Hge'].
  - destruct (Req_dec_T x x0) as [Hx0|Hx0];
      destruct (Req_dec_T x' x0) as [Hx0'|Hx0'].
    + lra.
    + apply segment_bounds; lra.
    + lra.
    + apply segment_mono; lra.
  - apply Rle_trans with y1.
    + destruct (Req_dec_T x x0); [lra|]. apply segment_bounds; lra.
    + apply interp_from_lower; [lra | exact Hnd'].
  - lra.
  - apply IH; [lra | lra | exact Hnd'].
Qed.

Lemma curve_value_mono (points : list (R * R)) (x x' : R) :
  nondecreasing (map snd (sorted points)) -> x <= x' ->
  curve_value points x <= curve_value points x'.
Proof.
  intros Hnd Hxx. unfold curve_value.
  destruct (sorted points) as [|q rest]; [lra|].
  simpl map in Hnd. unfold interp_point.
  destruct (Rlt_dec x (fst q)) as [Hlt|Hge];
    destruct (Rlt_dec x' (fst q)) as [Hlt'|Hge'].
  - lra.
  - apply interp_from_lower; [lra | exact Hnd].
  - lra.
  - apply interp_from_mono; [lra | lra | exact Hnd].
Qed.

(** X18.  When the outputs of the control points do not decrease along the
    sorted inputs, the tone curve is monotone: a larger sample never gets a
    smaller value, so the final per-channel curve of a preset keeps the
    order of any two channel values. *)
Theorem curve_monotone (points : list (R * R)) (x x' : R)
    (Hne : points <> [])
    (Hmono : nondecreasing (map snd (sorted points)))
    (Hxx : x <= x') :
  exists y y',
    apply_curve [[[x]]] points = Ok [[[y]]] /\
    apply_curve [[[x']]] points = Ok [[[y']]] /\
    y <= y'.
Proof.
  exists (curve_value points x), (curve_value points x').
  rewrite !apply_curve_ok by exact Hne.
  split; [reflexivity|]. split; [reflexivity|].
  now apply curve_value_mono.
Qed.

Lemma curve_monotone_witness :
  exists y y',
    apply_curve [[[0.2]]]
      [(0.0, 0.05); (0.15, 0.18); (0.5, 0.52); (0.85, 0.87); (1.0, 0.98)]
    = Ok [[[y]]] /\
    apply_curve [[[0.7]]]
      [(0.0, 0.05); (0.15, 0.18); (0.5, 0.52); (0.85, 0.87); (1.0, 0.98)]
    = Ok [[[y']]] /\
    y <= y'.
Proof.
  apply curve_monotone.
  - discriminate.
  - rewrite sorted_of_ascending by (repeat constructor; simpl; lra).
    simpl. lra.
  - lra.
Defined.

(** ** The driver *)

Lemma write_cube_at_ok {fs : Type} (os : os_calls fs) (d : fs) (lut : Grid)
    (path title : string) (content : file) :
  write_cube lut title = Ok content ->
  write_cube_at os d lut path title
  = (d1 <- os_open_w os d path ;; os_write_close os d1 path content).
Proof.
  intros Hw. unfold write_cube_at. rewrite Hw. reflexivity.
Qed.

Lemma world_eta {fs : Type} (w : world fs) : World (stdout w) (disk w) = w.
Proof. destruct w; reflexivity. Qed.

(** A loop over presets whose generators return: the operating system sees
    the files opened and written in order, and two strings are printed per
    preset. *)
Lemma for_each_run_presets {fs : Type} (os : os_calls fs) (dir : string)
    (items : list (string * (string * (Grid * file)))) (w : world fs) :
  Forall (fun it => write_cube (fst (snd (snd it))) (fst (snd it))
                    = Ok (snd (snd (snd it)))) items ->
  for_each
    (map (fun it => (fst it, (fst (snd it), Ok (fst (snd (snd it)))))) items)
    (run_preset os dir) w
  = (d <- store_all os dir
            (map (fun it => ((fst it ++ ".cube")%string,
                             snd (snd (snd it)))) items) (disk w) ;;
     Ok (World
           (stdout w ++
            flat_map
              (fun it =>
                 [(("Generating " ++ fst (snd it) ++ "...") ++ nl)%string;
                  (("  -> " ++ path_join dir (fst it ++ ".cube")) ++ nl)%string])
              items) d)).
Proof.
  intros Hall. revert w.
  induction Hall as [|it items Hit _ IH]; intros w.
  - simpl. now rewrite app_nil_r, world_eta.
  - cbn [map for_each store_all flat_map fst snd].
    unfold run_preset at 1. cbn [fst snd bind].
    rewrite (write_cube_at_ok _ _ _ _ _ _ Hit). cbn [print disk stdout].
    destruct (os_open_w os (disk w) (path_join dir (fst it ++ ".cube")))
      as [d1|e]; cbn [bind]; [|reflexivity].
    destruct (os_write_close os d1 (path_join dir (fst it ++ ".cube"))
                (snd (snd (snd it)))) as [d2|e]; cbn [bind]; [|reflexivity].
    rewrite IH. cbn [print disk stdout].
    destruct (store_all os dir
                (map (fun it0 => ((fst it0 ++ ".cube")%string,
                                  snd (snd (snd it0)))) items) d2)
      as [d3|e]; cbn [bind]; [|reflexivity].
    do 2 f_equal. rewrite <- !app_assoc. reflexivity.
Qed.

(** X19.  Whatever the operating system does, the driver behaves as
    follows.  Every preset generator returns a grid of 35937 cells in
    [[0,1]] and [write_cube] returns its strings for it.  The run calls
    [os.makedirs] for the output directory, then opens and writes
    [ft_vintage.cube], [ft_mood.cube], [ft_lush.cube], [ft_dream.cube] and
    [ft_golden.cube] in this order, each with the strings of [write_cube]
    for its preset and title; the first of these calls that raises ends the
    run with its exception.  When none raises, the run ends after eleven
    calls of [print]: two for each preset and the closing message. *)
Theorem main_writes_presets {fs : Type} (os : os_calls fs)
    (output_dir : string) (w : world fs) :
  let newline := String "010"%char EmptyString in
  exists (o1 o2 o3 o4 o5 : Grid) (c1 c2 c3 c4 c5 : file),
    (generate_vintage = Ok o1 /\ generate_mood = Ok o2 /\
     generate_lush = Ok o3 /\ generate_dream = Ok o4 /\
     generate_golden = Ok o5) /\
    (write_cube o1 "Vintage" = Ok c1 /\ write_cube o2 "Mood" = Ok c2 /\
     write_cube o3 "Lush" = Ok c3 /\ write_cube o4 "Dream" = Ok c4 /\
     write_cube o5 "Golden Hour" = Ok c5) /\
    Forall (fun o => grid_unit o /\ Z.of_nat (length (cells o)) = 35937%Z)
           [o1; o2; o3; o4; o5] /\
    Forall (fun c : file => Z.of_nat (length c) = 35942%Z)
           [c1; c2; c3; c4; c5] /\
    main os output_dir w
    = (d <- os_makedirs os (disk w) output_dir ;;
       d <- store_all os output_dir
              [("ft_vintage.cube"%string, c1); ("ft_mood.cube"%string, c2);
               ("ft_lush.cube"%string, c3); ("ft_dream.cube"%string, c4);
               ("ft_golden.cube"%string, c5)] d ;;
       Ok (World
             (stdout w ++
              [("Generating Vintage..." ++ newline)%string;
               (("  -> " ++ output_dir ++ "/ft_vintage.cube") ++ newline)%string;
               ("Generating Mood..." ++ newline)%string;
               (("  -> " ++ output_dir ++ "/ft_mood.cube") ++ newline)%string;
               ("Generating Lush..." ++ newline)%string;
               (("  -> " ++ output_dir ++ "/ft_lush.cube") ++ newline)%string;
               ("Generating Dream..." ++ newline)%string;
               (("  -> " ++ output_dir ++ "/ft_dream.cube") ++ newline)%string;
               ("Generating Golden Hour..." ++ newline)%string;
               (("  -> " ++ output_dir ++ "/ft_golden.cube") ++ newline)%string;
               (newline ++ "Done! 5 Featured LUTs generated." ++ newline)%string])
             d)).
Proof.
  intros newline.
  destruct generate_vintage_runs as [o1 [G1 [U1 S1]]].
  destruct generate_mood_runs as [o2 [G2 [U2 S2]]].
  destruct generate_lush_runs as [o3 [G3 [U3 S3]]].
  destruct generate_dream_runs as [o4 [G4 [U4 S4]]].
  destruct generate_golden_runs as [o5 [G5 [U5 S5]]].
  change (Z.to_nat LUT_SIZE) with 33%nat in *.
  pose proof (write_cube_content 33 o1 "Vintage" S1) as W1.
  pose proof (write_cube_content 33 o2 "Mood" S2) as W2.
  pose proof (write_cube_content 33 o3 "Lush" S3) as W3.
  pose proof (write_cube_content 33 o4 "Dream" S4) as W4.
  pose proof (write_cube_content 33 o5 "Golden Hour" S5) as W5.
  assert (Hlen : forall o title, shape 33 o ->
            Z.of_nat (length (cube_header title 33 ++ map data_line (cells o)))
            = 35942%Z).
  { intros o title So. rewrite length_app, length_map, (cells_length 33 o So).
    reflexivity. }
  pose proof (Hlen o1 "Vintage"%string S1) as L1.
  pose proof (Hlen o2 "Mood"%string S2) as L2.
  pose proof (Hlen o3 "Lush"%string S3) as L3.
  pose proof (Hlen o4 "Dream"%string S4) as L4.
  pose proof (Hlen o5 "Golden Hour"%string S5) as L5.
  clear Hlen.
  set (c1 := cube_header "Vintage" 33 ++ map data_line (cells o1)) in *.
  set (c2 := cube_header "Mood" 33 ++ map data_line (cells o2)) in *.
  set (c3 := cube_header "Lush" 33 ++ map data_line (cells o3)) in *.
  set (c4 := cube_header "Dream" 33 ++ map data_line (cells o4)) in *.
  set (c5 := cube_header "Golden Hour" 33 ++ map data_line (cells o5)) in *.
  exists o1, o2, o3, o4, o5, c1, c2, c3, c4, c5.
  split; [exact (conj G1 (conj G2 (conj G3 (conj G4 G5))))|].
  split; [exact (conj W1 (conj W2 (conj W3 (conj W4 W5))))|].
  split.
  { repeat (apply Forall_cons;
            [split; [assumption|];
             rewrite (cells_length 33) by assumption; reflexivity|]).
    apply Forall_nil. }
  split.
  { repeat (apply Forall_cons; [assumption|]). apply Forall_nil. }
  unfold main, presets. rewrite G1, G2, G3, G4, G5.
  destruct (os_makedirs os (disk w) output_dir) as [d0|e]; cbn [bind];
    [|reflexivity].
  pose proof (for_each_run_presets os output_dir
                [("ft_vintage"%string, ("Vintage"%string, (o1, c1)));
                 ("ft_mood"%string, ("Mood"%string, (o2, c2)));
                 ("ft_lush"%string, ("Lush"%string, (o3, c3)));
                 ("ft_dream"%string, ("Dream"%string, (o4, c4)));
                 ("ft_golden"%string, ("Golden Hour"%string, (o5, c5)))]
                (World (stdout w) d0)) as Hloop.
  cbn [map fst snd flat_map app append disk stdout] in Hloop.
  rewrite Hloop by (repeat (apply Forall_cons; [assumption|]); apply Forall_nil).
  clear Hloop.
  match goal with
  | |- context [store_all os output_dir ?items d0] =>
      destruct (store_all os output_dir items d0) as [d5|e]
  end; cbn [bind]; [|reflexivity].
  unfold print. cbn [stdout disk]. rewrite <- app_assoc. reflexivity.
Qed.

Lemma main_writes_presets_witness :
  exists w',
    main plain_os "LUTs" (World [] []) = Ok w' /\
    length (stdout w') = 11%nat /\
    map fst (disk w')
    = ["LUTs/ft_golden.cube"; "LUTs/ft_golden.cube";
       "LUTs/ft_dream.cube"; "LUTs/ft_dream.cube";
       "LUTs/ft_lush.cube"; "LUTs/ft_lush.cube";
       "LUTs/ft_mood.cube"; "LUTs/ft_mood.cube";
       "LUTs/ft_vintage.cube"; "LUTs/ft_vintage.cube"]%string.
Proof.
  destruct (main_writes_presets plain_os "LUTs" (World [] []))
    as [o1 [o2 [o3 [o4 [o5 [c1 [c2 [c3 [c4 [c5 [_ [_ [_ [_ Hrun]]]]]]]]]]]]]].
  eexists. split; [exact Hrun|]. split; reflexivity.
Defined.

(** ** The encoder on grids that are not cubes *)

Lemma for_each_append {A : Type} (h : A -> file) (l : list A)
    (body : A -> file -> result file) (f : file) :
  (forall a f', In a l -> body a f' = Ok (f' ++ h a)) ->
  for_each l body f = Ok (f ++ flat_map h l).
Proof.
  revert f. induction l as [|a l IH]; intros f Hbody; simpl.
  - now rewrite app_nil_r.
  - rewrite Hbody by now left. simpl.
    rewrite IH by (intros; apply Hbody; now right).
    now rewrite <- app_assoc.
Qed.

Lemma for_each_ok_or_raise {A S : Type} (e : error) (l : list A)
    (body : A -> S -> result S) :
  (forall a s, body a s = Raise e \/ exists s', body a s = Ok s') ->
  forall s, for_each l body s = Raise e \/ exists s', for_each l body s = Ok s'.
Proof.
  intros Hbody. induction l as [|a l IH]; intros s; simpl.
  - right. now exists s.
  - destruct (Hbody a s) as [-> | [s' ->]]; simpl; [now left | apply IH].
Qed.

Lemma for_each_raise {A S : Type} (e : error) (l : list A)
    (body : A -> S -> result S) (s : S) :
  (forall a s, body a s = Raise e \/ exists s', body a s = Ok s') ->
  (exists a, In a l /\ forall s, body a s = Raise e) ->
  for_each l body s = Raise e.
Proof.
  intros Hbody [a0 [Hin Hfail]]. revert s.
  induction l as [|a l IH]; intros s; [contradiction|]. simpl.
  destruct (Hbody a s) as [-> | [s' Hs']]; [reflexivity|].
  rewrite Hs'. simpl.
  destruct Hin as [-> | Hin]; [|now apply IH].
  rewrite Hfail in Hs'. discriminate.
Qed.

Lemma flat_map_uniform {A B : Type} (m : nat) (h : A -> list B)
    (l : list A) :
  (forall a, In a l -> length (h a) = m) ->
  Forall (fun x => length x = m) (map h l).
Proof.
  intros Hlen. apply Forall_map, Forall_forall. exact Hlen.
Qed.

Lemma flat_map_seq_length {B : Type} (n m : nat) (h : nat -> list B) :
  (forall i, (i < n)%nat -> length (h i) = m) ->
  length (flat_map h (seq 0 n)) = (n * m)%nat.
Proof.
  intros Hlen. rewrite flat_map_concat_map.
  rewrite (concat_uniform_length m).
  - now rewrite length_map, length_seq.
  - apply flat_map_uniform. intros i Hi. apply Hlen.
    apply in_seq in Hi. lia.
Qed.

Lemma flat_map_seq_nth {B : Type} (n m : nat) (h : nat -> list B)
    (i j : nat) :
  (forall i, (i < n)%nat -> length (h i) = m) ->
  (i < n)%nat -> (j < m)%nat ->
  nth_error (flat_map h (seq 0 n)) (i * m + j) = nth_error (h i) j.
Proof.
  intros Hlen Hi Hj. rewrite flat_map_concat_map.
  rewrite (nth_error_concat_uniform m).
  - now rewrite nth_error_map_seq.
  - apply flat_map_uniform. intros k Hk. apply Hlen.
    apply in_seq in Hk. lia.
  - exact Hj.
Qed.

(** X20.  [write_cube] takes the size [n] from the first axis only.  When
    every index triple below [n] exists in the grid, it writes the header
    for size [n] and exactly [n^3] data lines, line [b*n*n + g*n + r]
    holding cell [(b, g, r)], so cells at larger green or red indices are
    left out; when some index triple below [n] is missing, it raises
    [IndexError]. *)
Theorem write_cube_bounds (lut : Grid) (title : string) :
  let n := length lut in
  ((forall b g r, (b < n)%nat -> (g < n)%nat -> (r < n)%nat ->
      grid_get lut b g r <> None) ->
   exists data,
     write_cube lut title = Ok (cube_header title n ++ data) /\
     length data = (n * n * n)%nat /\
     forall b g r, (b < n)%nat -> (g < n)%nat -> (r < n)%nat ->
       nth_error data (b * n * n + g * n + r)
       = option_map data_line (grid_get lut b g r)) /\
  ((exists b g r, (b < n)%nat /\ (g < n)%nat /\ (r < n)%nat /\
                  grid_get lut b g r = None) ->
   write_cube lut title = Raise IndexError).
Proof.
  intros n.
  set (line := fun b g r : nat =>
                 match grid_get lut b g r with
                 | Some p => [data_line p]
                 | None => []
                 end).
  set (body_r := fun (b g r : nat) (f : file) =>
                   rgb <- index3 lut b g r ;; Ok (write f (data_line rgb))).
  assert (Hbody_r : forall b g r f,
            body_r b g r f = Raise IndexError \/
            exists f', body_r b g r f = Ok f').
  { intros b g r f. unfold body_r, index3.
    destruct (grid_get lut b g r); simpl; [right; eauto | now left]. }
  assert (Hwrite : write_cube lut title
            = for_each (seq 0 n) (fun b f =>
                for_each (seq 0 n) (fun g f =>
                  for_each (seq 0 n) (body_r b g) f) f)
                (cube_header title n)).
  { unfold write_cube, range, write. rewrite Nat2Z.id. reflexivity. }
  rewrite Hwrite. split.
  - intros Hall.
    assert (Hline : forall b g r, (b < n)%nat -> (g < n)%nat -> (r < n)%nat ->
              length (line b g r) = 1%nat /\
              nth_error (line b g r) 0
              = option_map data_line (grid_get lut b g r)).
    { intros b g r Hb Hg Hr. unfold line.
      specialize (Hall b g r Hb Hg Hr).
      destruct (grid_get lut b g r); [split; reflexivity | contradiction]. }
    exists (flat_map (fun b =>
              flat_map (fun g => flat_map (line b g) (seq 0 n)) (seq 0 n))
              (seq 0 n)).
    assert (Hrow : forall b g, (b < n)%nat -> (g < n)%nat ->
              length (flat_map (line b g) (seq 0 n)) = n).
    { intros b g Hb Hg. rewrite (flat_map_seq_length n 1); [lia|].
      intros r Hr. now apply Hline. }
    assert (Hplane : forall b, (b < n)%nat ->
              length (flat_map (fun g => flat_map (line b g) (seq 0 n))
                        (seq 0 n)) = (n * n)%nat).
    { intros b Hb. apply flat_map_seq_length. intros g Hg. now apply Hrow. }
    split; [|split].
    + apply for_each_append. intros b f Hb. apply in_seq in Hb.
      apply for_each_append. intros g f' Hg. apply in_seq in Hg.
      apply for_each_append. intros r f'' Hr. apply in_seq in Hr.
      unfold body_r, index3, line.
      specialize (Hall b g r ltac:(lia) ltac:(lia) ltac:(lia)).
      destruct (grid_get lut b g r); [reflexivity | contradiction].
    + rewrite (flat_map_seq_length n (n * n)) by exact Hplane. lia.
    + intros b g r Hb Hg Hr.
      replace (b * n * n + g * n + r)%nat
        with (b * (n * n) + (g * n + r))%nat by lia.
      rewrite (flat_map_seq_nth n (n * n));
        [| exact Hplane | exact Hb | nia].
      rewrite (flat_map_seq_nth n n);
        [| intros i Hi; now apply Hrow | exact Hg | exact Hr].
      replace r with (r * 1 + 0)%nat at 1 by lia.
      rewrite (flat_map_seq_nth n 1);
        [| intros i Hi; now apply Hline | exact Hr | lia].
      now apply Hline.
  - intros [b [g [r [Hb [Hg [Hr Hnone]]]]]].
    apply for_each_raise.
    + intros b' f. apply for_each_ok_or_raise. intros g' f'.
      apply for_each_ok_or_raise. intros r' f''. apply Hbody_r.
    + exists b. split; [apply in_seq; lia|]. intros f.
      apply for_each_raise.
      * intros g' f'. apply for_each_ok_or_raise. intros r' f''.
        apply Hbody_r.
      * exists g. split; [apply in_seq; lia|]. intros f'.
        apply for_each_raise; [intros; apply Hbody_r|].
        exists r. split; [apply in_seq; lia|]. intros f''.
        unfold body_r, index3. now rewrite Hnone.
Qed.

Lemma write_cube_bounds_witness :
  write_cube [[[RGB 0 0 0]]; [[RGB 1 1 1]]] "LUT" = Raise IndexError.
Proof.
  apply (proj2 (write_cube_bounds [[[RGB 0 0 0]]; [[RGB 1 1 1]]] "LUT")).
  exists 0%nat, 0%nat, 1%nat. simpl. repeat split; lia.
Defined.
